(** * LP qualifiers scraper: a shallow embedding of [full-script-resumable.js]

    The script walks the event logs of a factory contract, values every
    liquidity pool it finds, looks up the holders of the pools it keeps and
    appends the holders that qualify to a CSV file, remembering the pools it
    has dealt with in a checkpoint file.

    [scrapeLP.js] is an earlier version of the same script, without the pool
    gate, the retries and the checkpoint; its [queryFilterPaginated],
    [getLPPairAddresses] and [getLPHolders] are, line for line, the ones
    embedded here.

    The embedding keeps the shape of the JavaScript: every function of the
    script is a computation in a small monad [M] that threads the state of
    the process (the effects performed so far, the files on disk and the
    in-memory checkpoint array) and ends by returning, by throwing, or not at
    all.  The outside world (the RPC endpoint, faults of the file system, the
    built-ins [JSON.parse], [JSON.stringify], [parseFloat] and ethers'
    [formatUnits]) is a record of oracles [Env]; the oracles read the whole
    history of effects, so an endpoint may answer the same request differently
    each time it is asked. *)

From Stdlib Require Import ZArith List Ascii String Bool Lia Floats.
From stdpp Require Import gmap strings.
Import ListNotations.

Local Open Scope Z_scope.

(** ** Data *)

(** Addresses are JavaScript strings. *)
Abbreviation Address := string.

(** A JavaScript error object; [code] is the [error.code] property that the
    retry loop inspects ([None] when the property is missing). *)
Record JSError := mkError { code : option string; message : string }.

(** [args] of a decoded [PairCreated(token0, token1, pair, uint)] log. *)
Record PairCreatedLog := mkPairCreated {
  args_token0 : Address;
  args_token1 : Address;
  args_pair : Address
}.

(** [args] of a decoded [Transfer(from, to, value)] log. *)
Record TransferLog := mkTransfer {
  args_from : Address;
  args_to : Address;
  args_value : Z
}.

(** The two contracts the script builds with [new ethers.Contract]: the
    factory and, for a pool address, its LP token. *)
Inductive Contract :=
| FactoryContract
| LPTokenContract (lpAddress : Address).

(** What [contract.queryFilter] yields depends on the ABI of the contract. *)
Definition EventOf (c : Contract) : Type :=
  match c with
  | FactoryContract => PairCreatedLog
  | LPTokenContract _ => TransferLog
  end.

(** [factoryContract.filters.PairCreated()] and
    [lpContract.filters.Transfer(from, to)], where [null] is [None]. *)
Inductive Filter :=
| PairCreatedFilter
| TransferFilter (from to : option Address).

(** The object pushed by [checkLPHolderValue]; numbers are IEEE doubles. *)
Record HolderRecord := mkRecord {
  lpAddress : Address;
  holderAddress : Address;
  balance : float;
  holdingValue : float
}.

(** Every message the script prints, one constructor per template string. *)
Inductive Message :=
| MsgAttemptTimeout (attempt : Z) (address : Address)
| MsgQuerying (start end_ : Z)
| MsgFound (n : Z) (start end_ : Z)
| MsgQueryError (start end_ : Z) (error : JSError)
| MsgQueryingPairCreated (fromBlock toBlock batchSize : Z)
| MsgTotalSupplyError (lp : Address) (err : JSError)
| MsgBalanceError (addr lp : Address) (err : JSError)
| MsgAppended (n : Z) (filename : string)
| MsgCheckpointParseError
| MsgScraping (fromBlock toBlock batchSize : Z)
| MsgCheckpointLoaded (checkpoint : list Address)
| MsgFoundPairs (lpPairAddresses : list Address)
| MsgProcessingNew (n : Z)
| MsgProcessingPair (lp : Address)
| MsgPoolValue (lp : Address) (poolValue : float)
| MsgSkipping (lp : Address)
| MsgFoundHolders (n : Z) (lp : Address)
| MsgQualifying (lp : Address)
| MsgErrorProcessing (lp : Address) (err : JSError)
| MsgScrapingComplete.

(** What the process does to the outside world, in the order it does it. *)
Inductive Effect :=
| RpcGetBlockNumber
| RpcQueryFilter (contract : Contract) (filter : Filter) (start end_ : Z)
| RpcTotalSupply (contract : Contract)
| RpcBalanceOf (contract : Contract) (address : Address)
| Sleep (delay : Z)
| FsRead (filename : string)
| FsWrite (filename data : string)
| FsAppend (filename data : string)
| ConsoleLog (m : Message)
| ConsoleError (m : Message)
| ConsoleTable (records : list HolderRecord).

(** The state of the process: the effects so far (oldest first), the files
    on disk, and the array bound to [checkpoint] in [main], which the loop
    body mutates in place with [push]. *)
Record State := mkState {
  trace : list Effect;
  files : gmap string string;
  checkpoint : list Address
}.

(** The outside world.  A remote call resolves ([inr]) or rejects ([inl]). *)
Record Env := mkEnv {
  rpc_getBlockNumber : list Effect -> JSError + Z;
  rpc_queryFilter :
    list Effect -> forall c : Contract, Filter -> Z -> Z -> JSError + list (EventOf c);
  rpc_totalSupply : list Effect -> Contract -> JSError + Z;
  rpc_balanceOf : list Effect -> Contract -> Address -> JSError + Z;
  (** whether the file-system call about to be made throws *)
  fs_fault : list Effect -> Effect -> option JSError;
  (** [bn => parseFloat(formatUnits(bn, decimals))] *)
  units_to_number : Z -> Z -> float;
  (** [String(x)] for a number [x], as a template string prints it *)
  number_to_string : float -> string;
  (** [JSON.parse], on a file that holds an array of strings *)
  JSON_parse : string -> JSError + list Address;
  (** [data => JSON.stringify(data, null, 2)] *)
  JSON_stringify : list Address -> string
}.

(** ** The monad *)

(** How a computation ends: it returns, it throws, or it never ends. *)
Inductive Completion (A : Type) :=
| Return (a : A)
| Throw (e : JSError)
| Diverge.
Arguments Return {A} a.
Arguments Throw {A} e.
Arguments Diverge {A}.

Definition M (A : Type) : Type := State -> Completion A * State.

Definition ret {A} (a : A) : M A := fun s => (Return a, s).

Definition throw {A} (e : JSError) : M A := fun s => (Throw e, s).

Definition diverge {A} : M A := fun s => (Diverge, s).

Definition bind {A B} (m : M A) (k : A -> M B) : M B :=
  fun s =>
    match m s with
    | (Return a, s') => k a s'
    | (Throw e, s') => (Throw e, s')
    | (Diverge, s') => (Diverge, s')
    end.

(** [try { m } catch (e) { handler e }] *)
Definition try_catch {A} (m : M A) (handler : JSError -> M A) : M A :=
  fun s =>
    match m s with
    | (Throw e, s') => handler e s'
    | r => r
    end.

Declare Scope js_scope.
Delimit Scope js_scope with js.
Notation "x <- m ;; k" := (bind m (fun x => k))
  (at level 100, m at next level, right associativity) : js_scope.
Notation "m ;; k" := (bind m (fun _ => k))
  (at level 100, right associativity) : js_scope.
Local Open Scope js_scope.

Definition record_effect (e : Effect) (s : State) : State :=
  mkState (trace s ++ [e]) (files s) (checkpoint s).

Definition emit (e : Effect) : M unit := fun s => (Return tt, record_effect e s).

Definition console_log (m : Message) : M unit := emit (ConsoleLog m).
Definition console_error (m : Message) : M unit := emit (ConsoleError m).
Definition console_table (r : list HolderRecord) : M unit := emit (ConsoleTable r).

(** [await] of a remote call: the oracle sees the history before the call. *)
Definition await {A} (e : Effect) (oracle : list Effect -> JSError + A) : M A :=
  fun s =>
    match oracle (trace s) with
    | inr a => (Return a, record_effect e s)
    | inl err => (Throw err, record_effect e s)
    end.

Definition get_checkpoint : M (list Address) := fun s => (Return (checkpoint s), s).

Definition set_checkpoint (c : list Address) : M unit :=
  fun s => (Return tt, mkState (trace s) (files s) c).

(** [checkpoint.push(addr)] *)
Definition checkpoint_push (addr : Address) : M unit :=
  fun s => (Return tt, mkState (trace s) (files s) (checkpoint s ++ [addr])).

(** ** The file system

    Each call is recorded, then either throws (when the environment says so,
    leaving the disk as it was) or acts on [files]. *)

Section FileSystem.
Variable env : Env.

Definition fs_call {A} (e : Effect) (run : M A) : M A :=
  fun s =>
    match fs_fault env (trace s) e with
    | Some err => (Throw err, record_effect e s)
    | None => run (record_effect e s)
    end.

(** [fs.existsSync(filename)] *)
Definition fs_existsSync (filename : string) : M bool :=
  fun s =>
    (Return match files s !! filename with Some _ => true | None => false end, s).

Definition ENOENT : JSError :=
  mkError (Some "ENOENT"%string) "no such file or directory"%string.

(** [fs.readFileSync(filename, "utf8")] *)
Definition fs_readFileSync (filename : string) : M string :=
  fs_call (FsRead filename)
    (fun s =>
       match files s !! filename with
       | Some data => (Return data, s)
       | None => (Throw ENOENT, s)
       end).

(** [fs.writeFileSync(filename, data)]: the file holds [data] afterwards. *)
Definition fs_writeFileSync (filename data : string) : M unit :=
  fs_call (FsWrite filename data)
    (fun s => (Return tt, mkState (trace s) (<[filename := data]> (files s)) (checkpoint s))).

(** [fs.appendFileSync(filename, data)]: creates the file when missing. *)
Definition fs_appendFileSync (filename data : string) : M unit :=
  fs_call (FsAppend filename data)
    (fun s =>
       let old := match files s !! filename with Some d => d | None => ""%string end in
       (Return tt,
        mkState (trace s) (<[filename := (old ++ data)%string]> (files s)) (checkpoint s))).
End FileSystem.

(** ** The script *)

Definition CSV_FILENAME : string := "lp_qualifiers.csv".
Definition CHECKPOINT_FILENAME : string := "checkpoint.json".
Definition ZeroAddress : Address := "0x0000000000000000000000000000000000000000".

(** The line feed written as ["\n"] in the script. *)
Definition LF : string := String "010"%char EmptyString.

Definition CSV_HEADER : string := "lpAddress,holderAddress,balance,holdingValue".

(** [error.code === 'ETIMEDOUT' || error.code === 'TIMEOUT'] *)
Definition is_timeout (error : JSError) : bool :=
  match code error with
  | Some c => String.eqb c "ETIMEDOUT" || String.eqb c "TIMEOUT"
  | None => false
  end.

(** [s.add(x)] on a JavaScript [Set], kept as the list of its elements in
    insertion order: an element already present is not added again. *)
Definition Set_add (s : list Address) (x : Address) : list Address :=
  if existsb (String.eqb x) s then s else s ++ [x].

(** [[...new Set(l)]] *)
Definition unique (l : list Address) : list Address := fold_left Set_add l [].

(** [checkpoint.includes(addr)] *)
Definition includes (l : list Address) (addr : Address) : bool :=
  existsb (String.eqb addr) l.

(** What [formatUnits] throws on a value that is no number. *)
Definition INVALID_ARGUMENT : JSError :=
  mkError (Some "INVALID_ARGUMENT"%string) "invalid BigNumberish value"%string.

(** One row of the CSV file, as the template string of [appendRecordsToCSV]
    builds it. *)
Definition csv_row (to_s : float -> string) (record : HolderRecord) : string :=
  (lpAddress record ++ "," ++ holderAddress record ++ ","
   ++ to_s (balance record) ++ "," ++ to_s (holdingValue record))%string.

Section Script.
Variable env : Env.

Definition sleep (delay : Z) : M unit := emit (Sleep delay).

Definition contract_queryFilter (c : Contract) (filter : Filter) (start end_ : Z)
  : M (list (EventOf c)) :=
  await (RpcQueryFilter c filter start end_)
    (fun h => rpc_queryFilter env h c filter start end_).

Definition contract_totalSupply (c : Contract) : M Z :=
  await (RpcTotalSupply c) (fun h => rpc_totalSupply env h c).

Definition contract_balanceOf (c : Contract) (address : Address) : M Z :=
  await (RpcBalanceOf c address) (fun h => rpc_balanceOf env h c address).

Definition provider_getBlockNumber : M Z :=
  await RpcGetBlockNumber (rpc_getBlockNumber env).

(** The [for] loop of [fetchBalanceWithRetries], entered with the loop
    variable at [attempt].  Inside the [try], [Some v] stands for
    [return v] and [None] for reaching the end of the loop body. *)
Fixpoint fetchBalance_from (fuel : nat) (lpContract : Contract) (address : Address)
    (retries delayMs attempt : Z) : M (option Z) :=
  if attempt <=? retries then
    match fuel with
    | O => diverge
    | S fuel' =>
        returned <-
          try_catch
            (balanceBN <- contract_balanceOf lpContract address ;;
             ret (Some (Some balanceBN)))
            (fun error =>
               if is_timeout error then
                 console_error (MsgAttemptTimeout attempt address) ;;
                 if attempt <? retries then sleep delayMs ;; ret None
                 else throw error
               else throw error) ;;
        match returned with
        | Some balanceBN => ret balanceBN
        | None =>
            fetchBalance_from fuel' lpContract address retries delayMs (attempt + 1)
        end
    end
  else ret None.

(** [fetchBalanceWithRetries(lpContract, address, retries, delayMs)];
    the result is [None] when the function ends without a [return]
    ([undefined]). *)
Definition fetchBalanceWithRetries (lpContract : Contract) (address : Address)
    (retries delayMs : Z) : M (option Z) :=
  fetchBalance_from (Z.to_nat retries) lpContract address retries delayMs 1.

(** The [for] loop of [queryFilterPaginated], entered with the loop
    variable at [current] and the array [events] as filled so far. *)
Fixpoint queryFilterPaginated_from (fuel : nat) (contract : Contract) (filter : Filter)
    (toBlock batchSize current : Z) (events : list (EventOf contract))
  : M (list (EventOf contract)) :=
  if current <=? toBlock then
    match fuel with
    | O => diverge
    | S fuel' =>
        let start := current in
        let end_ := Z.min (current + batchSize - 1) toBlock in
        console_log (MsgQuerying start end_) ;;
        events' <-
          try_catch
            (batch <- contract_queryFilter contract filter start end_ ;;
             console_log (MsgFound (Z.of_nat (length batch)) start end_) ;;
             ret (events ++ batch))
            (fun error =>
               console_error (MsgQueryError start end_ error) ;;
               ret events) ;;
        queryFilterPaginated_from fuel' contract filter toBlock batchSize
          (current + batchSize) events'
    end
  else ret events.

(** [queryFilterPaginated(contract, filter, fromBlock, toBlock, batchSize)].
    Block heights and the batch size are whole numbers, as [main] passes
    them (JavaScript numbers below 2^53, on which [+], [-], [<=] and
    [Math.min] are exact).  With a batch size of one block or more the loop
    body runs at most [toBlock - fromBlock + 1] times; with a batch size of
    zero or less the JavaScript loop never ends, and neither does this
    one. *)
Definition queryFilterPaginated (contract : Contract) (filter : Filter)
    (fromBlock toBlock batchSize : Z) : M (list (EventOf contract)) :=
  queryFilterPaginated_from (Z.to_nat (toBlock - fromBlock + 1)) contract filter
    toBlock batchSize fromBlock [].

Definition getLPPairAddresses (fromBlock toBlock batchSize : Z) : M (list Address) :=
  console_log (MsgQueryingPairCreated fromBlock toBlock batchSize) ;;
  let filter := PairCreatedFilter in
  logs <- queryFilterPaginated FactoryContract filter fromBlock toBlock batchSize ;;
  let pairAddresses := map args_pair logs in
  ret (unique pairAddresses).

Definition getLPHolders (lpAddress : Address) (fromBlock toBlock batchSize : Z)
  : M (list Address) :=
  let lpContract := LPTokenContract lpAddress in
  let filter := TransferFilter (Some ZeroAddress) None in
  logs <- queryFilterPaginated lpContract filter fromBlock toBlock batchSize ;;
  let holderAddresses := map args_to logs in
  ret (unique holderAddresses).

Definition getLPTokenUSDValue (lpAddress : Address) : M float := ret 5%float.

Definition getLiquidityPoolValue (lpAddress : Address) (decimals : Z) : M float :=
  let lpContract := LPTokenContract lpAddress in
  try_catch
    (totalSupplyBN <- contract_totalSupply lpContract ;;
     let totalSupply := units_to_number env totalSupplyBN decimals in
     lpTokenUSDValue <- getLPTokenUSDValue lpAddress ;;
     let poolValue := (totalSupply * lpTokenUSDValue)%float in
     ret poolValue)
    (fun err =>
       console_error (MsgTotalSupplyError lpAddress err) ;;
       ret 0%float).

(** The [for ... of] loop of [checkLPHolderValue] over the holders still to
    visit, with the array [qualifyingHolders] as filled so far. *)
Fixpoint checkLPHolderValue_from (lpAddress : Address) (lpContract : Contract)
    (lpTokenUSDValue : float) (decimals : Z) (holderAddresses : list Address)
    (qualifyingHolders : list HolderRecord) : M (list HolderRecord) :=
  match holderAddresses with
  | [] => ret qualifyingHolders
  | addr :: rest =>
      qualifyingHolders' <-
        try_catch
          (balanceBN <- fetchBalanceWithRetries lpContract addr 3 2000 ;;
           match balanceBN with
           | None => throw INVALID_ARGUMENT
           | Some balanceBN =>
               let balance := units_to_number env balanceBN decimals in
               let holdingValue := (balance * lpTokenUSDValue)%float in
               if (5000 <=? holdingValue)%float then
                 ret (qualifyingHolders
                        ++ [mkRecord lpAddress addr balance holdingValue])
               else ret qualifyingHolders
           end)
          (fun err =>
             console_error (MsgBalanceError addr lpAddress err) ;;
             ret qualifyingHolders) ;;
      checkLPHolderValue_from lpAddress lpContract lpTokenUSDValue decimals rest
        qualifyingHolders'
  end.

Definition checkLPHolderValue (lpAddress : Address) (holderAddresses : list Address)
    (lpTokenUSDValue : float) (decimals : Z) : M (list HolderRecord) :=
  let lpContract := LPTokenContract lpAddress in
  checkLPHolderValue_from lpAddress lpContract lpTokenUSDValue decimals
    holderAddresses [].

(** [records.map(...).join("\n") + "\n"] *)
Definition csv_rows (records : list HolderRecord) : string :=
  (String.concat LF (map (csv_row (number_to_string env)) records) ++ LF)%string.

Definition appendRecordsToCSV (records : list HolderRecord) (filename : string)
  : M unit :=
  found <- fs_existsSync filename ;;
  (if negb found then fs_writeFileSync env filename (CSV_HEADER ++ LF)%string
   else ret tt) ;;
  let rows := csv_rows records in
  fs_appendFileSync env filename rows ;;
  console_log (MsgAppended (Z.of_nat (length records)) filename).

Definition loadCheckpoint (filename : string) : M (list Address) :=
  found <- fs_existsSync filename ;;
  if found then
    try_catch
      (data <- fs_readFileSync env filename ;;
       match JSON_parse env data with
       | inr parsed => ret parsed
       | inl e => throw e
       end)
      (fun e =>
         console_error MsgCheckpointParseError ;;
         ret [])
  else ret [].

Definition saveCheckpoint (filename : string) (checkpoint : list Address) : M unit :=
  fs_writeFileSync env filename (JSON_stringify env checkpoint).

(** The [try] block of the loop of [main], for one pool. *)
Definition processPair (fromBlock toBlock batchSize : Z) (lpAddress : Address)
  : M unit :=
  poolValue <- getLiquidityPoolValue lpAddress 18 ;;
  console_log (MsgPoolValue lpAddress poolValue) ;;
  if (20000 <=? poolValue)%float then
    console_log (MsgSkipping lpAddress) ;;
    checkpoint_push lpAddress ;;
    checkpoint <- get_checkpoint ;;
    saveCheckpoint CHECKPOINT_FILENAME checkpoint
  else
    holders <- getLPHolders lpAddress fromBlock toBlock batchSize ;;
    console_log (MsgFoundHolders (Z.of_nat (length holders)) lpAddress) ;;
    lpTokenUSDValue <- getLPTokenUSDValue lpAddress ;;
    qualifyingHolders <- checkLPHolderValue lpAddress holders lpTokenUSDValue 18 ;;
    console_log (MsgQualifying lpAddress) ;;
    console_table qualifyingHolders ;;
    (if 0 <? Z.of_nat (length qualifyingHolders) then
       appendRecordsToCSV qualifyingHolders CSV_FILENAME
     else ret tt) ;;
    checkpoint_push lpAddress ;;
    checkpoint <- get_checkpoint ;;
    saveCheckpoint CHECKPOINT_FILENAME checkpoint.

(** One turn of the loop of [main]: the [try] block and its [catch]. *)
Definition processPairGuarded (fromBlock toBlock batchSize : Z) (lpAddress : Address)
  : M unit :=
  console_log (MsgProcessingPair lpAddress) ;;
  try_catch
    (processPair fromBlock toBlock batchSize lpAddress)
    (fun err => console_error (MsgErrorProcessing lpAddress err)).

(** [for (const lpAddress of lpPairsToProcess) { ... }] *)
Fixpoint processPairs (fromBlock toBlock batchSize : Z)
    (lpPairsToProcess : list Address) : M unit :=
  match lpPairsToProcess with
  | [] => ret tt
  | lpAddress :: rest =>
      processPairGuarded fromBlock toBlock batchSize lpAddress ;;
      processPairs fromBlock toBlock batchSize rest
  end.

(** [lpPairAddresses.filter(addr => !checkpoint.includes(addr))] *)
Definition unprocessed (checkpoint lpPairAddresses : list Address) : list Address :=
  List.filter (fun addr => negb (includes checkpoint addr)) lpPairAddresses.

Definition main : M unit :=
  let fromBlock := 18672539 in
  latestBlock <- provider_getBlockNumber ;;
  let toBlock := latestBlock in
  let batchSize := 5000 in
  console_log (MsgScraping fromBlock toBlock batchSize) ;;
  loaded <- loadCheckpoint CHECKPOINT_FILENAME ;;
  set_checkpoint loaded ;;
  checkpoint <- get_checkpoint ;;
  console_log (MsgCheckpointLoaded checkpoint) ;;
  lpPairAddresses <- getLPPairAddresses fromBlock toBlock batchSize ;;
  console_log (MsgFoundPairs lpPairAddresses) ;;
  let lpPairsToProcess := unprocessed checkpoint lpPairAddresses in
  console_log (MsgProcessingNew (Z.of_nat (length lpPairsToProcess))) ;;
  processPairs fromBlock toBlock batchSize lpPairsToProcess ;;
  console_log MsgScrapingComplete.
End Script.

(** A process as the operating system starts it: nothing done yet, the files
    that are on disk, and no array bound to [checkpoint]. *)
Definition start (disk : gmap string string) : State := mkState [] disk [].

(** ** A concrete world

    An endpoint, a disk and the built-ins, used to run the script on the
    scenario of the specification: the factory has created the pools [0xA]
    and [0xB]; [0xA] holds 5000 tokens (25 000 dollars at five dollars a
    token), [0xB] holds 2000 (10 000 dollars); [0xB] minted to [0xh1] twice
    and to [0xh2]; [0xh1] owns 1200 tokens (6000 dollars) and [0xh2] owns 600
    (3000 dollars). *)

Module Example.

Definition poolA : Address := "0xA".
Definition poolB : Address := "0xB".
Definition holder1 : Address := "0xh1".
Definition holder2 : Address := "0xh2".
Definition token : Address := "0xt".

Definition ETIMEDOUT : JSError :=
  mkError (Some "ETIMEDOUT"%string) "connect ETIMEDOUT"%string.
Definition SERVER_ERROR : JSError :=
  mkError (Some "SERVER_ERROR"%string) "bad gateway"%string.
Definition EACCES : JSError :=
  mkError (Some "EACCES"%string) "permission denied"%string.
Definition SyntaxError : JSError :=
  mkError None "Unexpected token in JSON"%string.

(** An integer as a double (exact below 2^53, rounded above). *)
Definition Z2SF (z : Z) : spec_float :=
  match z with
  | Z0 => S754_zero false
  | Zpos p => S754_finite false p 0
  | Zneg p => S754_finite true p 0
  end.

(** The double nearest to [bn / 10^decimals], which is what [parseFloat]
    makes of the decimal string that [formatUnits] prints. *)
Definition units (bn decimals : Z) : float :=
  SF2Prim (SFdiv prec emax (Z2SF bn) (Z2SF (10 ^ decimals))).

Definition tokens (n : Z) : Z := n * 10 ^ 18.

(** Digits of a whole number; enough for the amounts of the scenario. *)
Definition digit (d : Z) : string :=
  String (ascii_of_nat (48 + Z.to_nat d)) EmptyString.

Fixpoint digits (fuel : nat) (n : Z) : string :=
  match fuel with
  | O => digit (n mod 10)
  | S fuel' =>
      if n <? 10 then digit n
      else (digits fuel' (n / 10) ++ digit (n mod 10))%string
  end.

Definition to_string (x : float) : string :=
  match Prim2SF x with
  | S754_finite false m e => digits 40 (Z.shiftl (Zpos m) e)
  | S754_zero _ => "0"
  | _ => "NaN"
  end.

(** [JSON.stringify(a, null, 2)] and [JSON.parse] on arrays of strings
    that need no escaping. *)
Definition QUOTE : ascii := ascii_of_nat 34.

Definition stringify (a : list Address) : string :=
  match a with
  | [] => "[]"
  | _ =>
      ("[" ++ LF
       ++ String.concat ("," ++ LF)
            (map (fun x => "  " ++ String QUOTE x ++ String QUOTE "") a)
       ++ LF ++ "]")%string
  end.

Fixpoint parse_items (data : string) (inside : bool) (item : string)
    (items : list Address) : option (list Address) :=
  match data with
  | EmptyString => if inside then None else Some items
  | String c rest =>
      if inside then
        if Ascii.eqb c QUOTE then parse_items rest false "" (items ++ [item])
        else parse_items rest true (item ++ String c "") items
      else if Ascii.eqb c QUOTE then parse_items rest true "" items
      else if existsb (Ascii.eqb c) [" "; "010"; ","; "]"]%char
      then parse_items rest false "" items
      else None
  end.

Definition parse (data : string) : JSError + list Address :=
  match data with
  | String "["%char rest =>
      match parse_items rest false "" [] with
      | Some items => inr items
      | None => inl SyntaxError
      end
  | _ => inl SyntaxError
  end.

(** Whether [address] has already timed out once in the history. *)
Definition timed_out (address : Address) (history : list Effect) : bool :=
  existsb
    (fun e =>
       match e with
       | ConsoleError (MsgAttemptTimeout _ a) => String.eqb a address
       | _ => false
       end)
    history.

(** Whether the checkpoint file has been written in the history. *)
Definition checkpoint_written (history : list Effect) : bool :=
  existsb
    (fun e =>
       match e with
       | FsWrite f _ => String.eqb f CHECKPOINT_FILENAME
       | _ => false
       end)
    history.

(** The chain is two thousand blocks past the first block of the scan. *)
Definition getBlockNumber (history : list Effect) : JSError + Z := inr 18679539.

(** The first batch holds every log; the second batch fails. *)
Definition queryFilter (history : list Effect) (c : Contract) (filter : Filter)
    (start end_ : Z) : JSError + list (EventOf c) :=
  if start =? 18672539 then
    match c with
    | FactoryContract =>
        inr [mkPairCreated token token poolA; mkPairCreated token token poolB;
             mkPairCreated token token poolA]
    | LPTokenContract lp =>
        if String.eqb lp poolB then
          inr [mkTransfer ZeroAddress holder1 (tokens 700);
               mkTransfer ZeroAddress holder2 (tokens 600);
               mkTransfer ZeroAddress holder1 (tokens 500)]
        else inr []
    end
  else inl SERVER_ERROR.

Definition totalSupply (history : list Effect) (c : Contract) : JSError + Z :=
  match c with
  | LPTokenContract lp =>
      if String.eqb lp poolA then inr (tokens 5000)
      else if String.eqb lp poolB then inr (tokens 2000)
      else inl SERVER_ERROR
  | FactoryContract => inl SERVER_ERROR
  end.

(** The first read of the balance of [0xh1] times out. *)
Definition balanceOf (history : list Effect) (c : Contract) (address : Address)
  : JSError + Z :=
  if String.eqb address holder1 then
    if timed_out holder1 history then inr (tokens 1200) else inl ETIMEDOUT
  else if String.eqb address holder2 then inr (tokens 600)
  else inr 0.

Definition no_fault (history : list Effect) (e : Effect) : option JSError := None.

(** The first write of the checkpoint file fails, later ones succeed. *)
Definition first_save_fails (history : list Effect) (e : Effect) : option JSError :=
  match e with
  | FsWrite f _ =>
      if String.eqb f CHECKPOINT_FILENAME && negb (checkpoint_written history)
      then Some EACCES else None
  | _ => None
  end.

(** Every append to a file fails: the disk is full. *)
Definition ENOSPC : JSError :=
  mkError (Some "ENOSPC"%string) "no space left on device"%string.

Definition appends_fail (history : list Effect) (e : Effect) : option JSError :=
  match e with
  | FsAppend _ _ => Some ENOSPC
  | _ => None
  end.

(** The first read of a balance times out, the second one is refused. *)
Definition balanceOf_refused_late (history : list Effect) (c : Contract)
    (address : Address) : JSError + Z :=
  if timed_out address history then inl SERVER_ERROR else inl ETIMEDOUT.

Definition world : Env :=
  mkEnv getBlockNumber queryFilter totalSupply balanceOf no_fault
    units to_string parse stringify.

Definition flaky_disk_world : Env :=
  mkEnv getBlockNumber queryFilter totalSupply balanceOf first_save_fails
    units to_string parse stringify.

Definition full_disk_world : Env :=
  mkEnv getBlockNumber queryFilter totalSupply balanceOf appends_fail
    units to_string parse stringify.

Definition late_refusal_world : Env :=
  mkEnv getBlockNumber queryFilter totalSupply balanceOf_refused_late no_fault
    units to_string parse stringify.

Definition empty_disk : gmap string string := ∅.

(** A disk left by an earlier run that dealt with [0xB]. *)
Definition disk_after_B : gmap string string :=
  {[ CHECKPOINT_FILENAME := stringify [poolB];
     CSV_FILENAME := (CSV_HEADER ++ LF ++ "0xB,0xh1,1200,6000" ++ LF)%string ]}.

(** A disk whose checkpoint file is cut short. *)
Definition disk_corrupt : gmap string string :=
  {[ CHECKPOINT_FILENAME := "[ 0xA"%string ]}.

End Example.


(** ** Words of the specification *)

(** The addresses of [l] in first-seen order: the element at position [i] is
    kept when it does not occur among the [i] elements before it. *)
Definition first_occurrences (l : list Address) : list Address :=
  flat_map
    (fun i =>
       match l !! i with
       | Some x => if includes (take i l) x then [] else [x]
       | None => []
       end)
    (seq 0 (length l)).

(** The same by recursion: the elements of [l] that occur neither in
    [prefix] nor earlier in [l]. *)
Fixpoint keep_first (prefix l : list Address) : list Address :=
  match l with
  | [] => []
  | x :: rest =>
      (if includes prefix x then [] else [x]) ++ keep_first (prefix ++ [x]) rest
  end.

(** [tiles lo hi l]: the block ranges of [l], each given by its first and
    last block, are not empty, follow one another without a gap or an
    overlap, start at [lo] and end at [hi]. *)
Inductive tiles : Z -> Z -> list (Z * Z) -> Prop :=
| tiles_last lo hi : lo <= hi -> tiles lo hi [(lo, hi)]
| tiles_next lo mid hi l :
    lo <= mid -> mid < hi -> tiles (mid + 1) hi l -> tiles lo hi ((lo, mid) :: l).

(** The number of blocks of a range. *)
Definition range_size (r : Z * Z) : Z := r.2 - r.1 + 1.

(** The block ranges of the log queries among the effects [l]. *)
Definition queried (l : list Effect) : list (Z * Z) :=
  flat_map
    (fun e =>
       match e with
       | RpcQueryFilter _ _ start end_ => [(start, end_)]
       | _ => []
       end)
    l.

(** The delays of the pauses among the effects [l]. *)
Definition pauses (l : list Effect) : list Z :=
  flat_map (fun e => match e with Sleep delay => [delay] | _ => [] end) l.

(** What a batch adds to the result: its events, or nothing when its query
    failed. *)
Definition batch_events {E} (outcome : JSError + list E) : list E :=
  match outcome with
  | inr batch => batch
  | inl _ => []
  end.

(** The effects of one batch: the announcement, the query and the report of
    its outcome. *)
Definition batch_effects {E} (c : Contract) (filter : Filter) (r : Z * Z)
    (outcome : JSError + list E) : list Effect :=
  [ConsoleLog (MsgQuerying r.1 r.2);
   RpcQueryFilter c filter r.1 r.2;
   match outcome with
   | inr batch => ConsoleLog (MsgFound (Z.of_nat (length batch)) r.1 r.2)
   | inl error => ConsoleError (MsgQueryError r.1 r.2 error)
   end].

(** [answers env c filter h ranges outcomes new]: starting from the history
    [h], the ranges are queried one after the other, each exactly once; the
    endpoint answers with [outcomes], in this order; [new] are the effects
    this leaves behind. *)
Inductive answers (env : Env) (c : Contract) (filter : Filter) :
  list Effect -> list (Z * Z) -> list (JSError + list (EventOf c)) -> list Effect -> Prop :=
| answers_done h : answers env c filter h [] [] []
| answers_batch h r ranges outcome outcomes new :
    outcome = rpc_queryFilter env (h ++ [ConsoleLog (MsgQuerying r.1 r.2)]) c filter r.1 r.2 ->
    answers env c filter (h ++ batch_effects c filter r outcome) ranges outcomes new ->
    answers env c filter h (r :: ranges) (outcome :: outcomes)
      (batch_effects c filter r outcome ++ new).

(** ** How the state of the process moves *)

(** What the CSV file held in [s], if it was there, is what it starts with
    in [s']: rows are only ever added after the ones that are there. *)
Definition csv_kept (s s' : State) : Prop :=
  forall old, files s !! CSV_FILENAME = Some old ->
    exists suffix, files s' !! CSV_FILENAME = Some (old ++ suffix)%string.

(** Effects other than an attempt to write the checkpoint file. *)
Definition not_checkpoint_write (e : Effect) : Prop :=
  match e with
  | FsWrite f _ | FsAppend f _ => f <> CHECKPOINT_FILENAME
  | _ => True
  end.

(** [evolves Q s s']: from [s] to [s'] the process performed effects that
    all satisfy [Q]; what the CSV file held is still at its start; and
    unless a write of the checkpoint file was attempted, the checkpoint is
    as it was, in memory and on disk. *)
Definition evolves (Q : Effect -> Prop) (s s' : State) : Prop :=
  exists l,
    trace s' = trace s ++ l
    /\ Forall Q l
    /\ csv_kept s s'
    /\ (Forall not_checkpoint_write l ->
        checkpoint s' = checkpoint s
        /\ files s' !! CHECKPOINT_FILENAME = files s !! CHECKPOINT_FILENAME).

(** [sat Q m Post]: from every state, [m] moves the process as [evolves Q]
    says and ends in a way that satisfies [Post]. *)
Definition sat {A} (Q : Effect -> Prop) (m : M A) (Post : Completion A -> Prop) : Prop :=
  forall s, evolves Q s (m s).2 /\ Post (m s).1.

(** The computation returns a value that satisfies [P]. *)
Definition returns {A} (P : A -> Prop) (r : Completion A) : Prop :=
  match r with
  | Return a => P a
  | _ => False
  end.

(** The computation returns a value that satisfies [P], or throws. *)
Definition ends {A} (P : A -> Prop) (r : Completion A) : Prop :=
  match r with
  | Return a => P a
  | Throw _ => True
  | Diverge => False
  end.

(** No condition on the value. *)
Definition anything {A} (a : A) : Prop := True.

(** ** What a part of the script may do *)

(** The messages printed while the pool [lp] is processed. *)
Definition message_of_pool (lp : Address) (m : Message) : Prop :=
  match m with
  | MsgAttemptTimeout _ _ | MsgQuerying _ _ | MsgFound _ _ _ | MsgQueryError _ _ _ => True
  | MsgTotalSupplyError l _ | MsgBalanceError _ l _ | MsgProcessingPair l
  | MsgPoolValue l _ | MsgSkipping l | MsgFoundHolders _ l | MsgQualifying l
  | MsgErrorProcessing l _ => l = lp
  | MsgAppended _ f => f = CSV_FILENAME
  | _ => False
  end.

(** Records of the pool [lp]. *)
Definition of_pool (lp : Address) (records : list HolderRecord) : Prop :=
  Forall (fun r => lpAddress r = lp) records.

(** The effects of one turn of the loop of [main], for the pool [lp]: remote
    reads of the LP token of [lp], pauses, writes of the checkpoint file,
    the header and rows of [lp] for the CSV file, and messages. *)
Definition pair_effect (env : Env) (lp : Address) (e : Effect) : Prop :=
  match e with
  | RpcQueryFilter c filter _ _ =>
      c = LPTokenContract lp /\ filter = TransferFilter (Some ZeroAddress) None
  | RpcTotalSupply c | RpcBalanceOf c _ => c = LPTokenContract lp
  | Sleep delay => delay = 2000
  | FsWrite f data =>
      f = CHECKPOINT_FILENAME \/ (f = CSV_FILENAME /\ data = (CSV_HEADER ++ LF)%string)
  | FsAppend f data =>
      f = CSV_FILENAME
      /\ exists records,
          records <> [] /\ of_pool lp records /\ data = csv_rows env records
  | ConsoleLog m | ConsoleError m => message_of_pool lp m
  | ConsoleTable records => of_pool lp records
  | RpcGetBlockNumber | FsRead _ => False
  end.

(** The effects of [main] outside the loop over the pools, the message that
    shows the loaded checkpoint apart. *)
Definition own_effect (e : Effect) : Prop :=
  match e with
  | RpcGetBlockNumber => True
  | RpcQueryFilter c filter _ _ => c = FactoryContract /\ filter = PairCreatedFilter
  | FsRead f => f = CHECKPOINT_FILENAME
  | ConsoleLog m =>
      match m with
      | MsgScraping _ _ _ | MsgQueryingPairCreated _ _ _ | MsgQuerying _ _
      | MsgFound _ _ _ | MsgFoundPairs _ | MsgProcessingNew _ | MsgScrapingComplete => True
      | _ => False
      end
  | ConsoleError m =>
      match m with
      | MsgCheckpointParseError | MsgQueryError _ _ _ => True
      | _ => False
      end
  | _ => False
  end.

(** What the log queries of [c] with [filter] may do. *)
Definition batch_effect (c : Contract) (filter : Filter) (e : Effect) : Prop :=
  match e with
  | RpcQueryFilter c' filter' _ _ => c' = c /\ filter' = filter
  | ConsoleLog (MsgQuerying _ _) | ConsoleLog (MsgFound _ _ _)
  | ConsoleError (MsgQueryError _ _ _) => True
  | _ => False
  end.

(** What the balance reads of [address] on [c] with pauses of [delayMs] may do. *)
Definition balance_effect (c : Contract) (address : Address) (delayMs : Z) (e : Effect)
  : Prop :=
  match e with
  | RpcBalanceOf c' a => c' = c /\ a = address
  | Sleep delay => delay = delayMs
  | ConsoleError (MsgAttemptTimeout _ a) => a = address
  | _ => False
  end.

(** [leaves_alone env P e]: the effect [e] is no remote read of the LP token
    of the pool [P], and when it appends to a file, it appends rows none of
    which is a row of [P]. *)
Definition leaves_alone (env : Env) (P : Address) (e : Effect) : Prop :=
  match e with
  | RpcTotalSupply c | RpcBalanceOf c _ | RpcQueryFilter c _ _ _ => c <> LPTokenContract P
  | FsAppend f data =>
      exists records,
        data = csv_rows env records /\ Forall (fun r => lpAddress r <> P) records
  | _ => True
  end.

(** What [main] does after the checkpoint [cp] was loaded: its own effects,
    and turns of the loop for pools that are not in [cp]. *)
Definition after_load (env : Env) (cp : list Address) (e : Effect) : Prop :=
  own_effect e \/ exists lp, (lp ∉ cp) /\ pair_effect env lp e.

(** [extend s l]: the state [s] after the effects [l], the disk and the
    checkpoint array untouched. *)
Definition extend (s : State) (l : list Effect) : State :=
  mkState (trace s ++ l) (files s) (checkpoint s).

(** The effects of [n] attempts in a row that time out and are followed by a
    pause, numbered from [first]: the read, the message, the pause. *)
Definition failed_attempts (c : Contract) (address : Address) (delayMs : Z)
    (first : Z) (n : nat) : list Effect :=
  flat_map
    (fun i =>
       [RpcBalanceOf c address;
        ConsoleError (MsgAttemptTimeout (first + Z.of_nat i) address);
        Sleep delayMs])
    (seq 0 n).

(** What the endpoint answers to the balance read made from the state [s]
    after [k] attempts that timed out, that is, to attempt number [k + 1]. *)
Definition attempt_outcome (env : Env) (s : State) (c : Contract) (address : Address)
    (delayMs : Z) (k : nat) : JSError + Z :=
  rpc_balanceOf env (trace s ++ failed_attempts c address delayMs 1 k) c address.

(** The first [n] attempts fail with a timeout. *)
Definition first_time_out (env : Env) (s : State) (c : Contract) (address : Address)
    (delayMs : Z) (n : nat) : Prop :=
  forall k, (k < n)%nat ->
    exists error,
      attempt_outcome env s c address delayMs k = inl error /\ is_timeout error = true.

(** What holder qualification keeps of the holder [addr], given how the read
    of its balance ended: a record when the read gave a balance whose value
    is 5000 or more, nothing otherwise. *)
Definition qualifying (env : Env) (lp : Address) (price : float) (decimals : Z)
    (addr : Address) (read : Completion (option Z)) : list HolderRecord :=
  match read with
  | Return (Some balanceBN) =>
      let balance := units_to_number env balanceBN decimals in
      let holdingValue := (balance * price)%float in
      if (5000 <=? holdingValue)%float
      then [mkRecord lp addr balance holdingValue]
      else []
  | _ => []
  end.

(** The state after the balance read of [addr] ended as [read] in [s]: a
    read that failed is reported. *)
Definition after_read (lp addr : Address) (read : Completion (option Z)) (s : State)
  : State :=
  match read with
  | Throw err => record_effect (ConsoleError (MsgBalanceError addr lp err)) s
  | Return None =>
      record_effect (ConsoleError (MsgBalanceError addr lp INVALID_ARGUMENT)) s
  | _ => s
  end.

(** [balance_reads env lp s holders reads s']: from [s], the balances of
    [holders] are read one holder after the other, with three attempts two
    seconds apart; the reads end as [reads], in this order, none without
    end, and leave the state [s']. *)
Inductive balance_reads (env : Env) (lp : Address) :
  State -> list Address -> list (Completion (option Z)) -> State -> Prop :=
| balance_reads_done s : balance_reads env lp s [] [] s
| balance_reads_next s addr rest read s1 reads s' :
    fetchBalanceWithRetries env (LPTokenContract lp) addr 3 2000 s = (read, s1) ->
    read <> Diverge ->
    balance_reads env lp (after_read lp addr read s1) rest reads s' ->
    balance_reads env lp s (addr :: rest) (read :: reads) s'.

(** The records kept of [holders] whose reads ended as [reads]. *)
Definition qualified (env : Env) (lp : Address) (price : float) (decimals : Z)
    (holders : list Address) (reads : list (Completion (option Z))) : list HolderRecord :=
  concat (zip_with (qualifying env lp price decimals) holders reads).

(** [then_ f r]: the outcome [r] of a computation with [f] applied to the
    value it returned, if it returned. *)
Definition then_ {A B} (f : A -> B) (r : Completion A * State) : Completion B * State :=
  match r with
  | (Return a, s) => (Return (f a), s)
  | (Throw e, s) => (Throw e, s)
  | (Diverge, s) => (Diverge, s)
  end.

(** The block ranges of the log queries on the LP token of [lp] among the
    effects [l]: the holder discovery made for [lp]. *)
Definition holder_queries (lp : Address) (l : list Effect) : list (Z * Z) :=
  flat_map
    (fun e =>
       match e with
       | RpcQueryFilter (LPTokenContract a) _ start end_ =>
           if String.eqb a lp then [(start, end_)] else []
       | _ => []
       end)
    l.

(** ** Further words for what the code does *)

(** The balance reads among the effects [l]. *)
Definition reads_made (l : list Effect) : list (Contract * Address) :=
  flat_map (fun e => match e with RpcBalanceOf c a => [(c, a)] | _ => [] end) l.

(** The number of batches of a scan: none when the range is empty, else the
    number of blocks divided by the batch size, rounded up. *)
Definition batch_count (fromBlock toBlock batchSize : Z) : nat :=
  if fromBlock <=? toBlock then Z.to_nat ((toBlock - fromBlock) / batchSize + 1) else 0%nat.

(** Batch number [k], counted from zero: [batchSize] blocks from
    [fromBlock + k * batchSize], cut at [toBlock]. *)
Definition nth_batch (fromBlock toBlock batchSize : Z) (k : nat) : Z * Z :=
  let start := fromBlock + Z.of_nat k * batchSize in
  (start, Z.min (start + batchSize - 1) toBlock).

Definition batches (fromBlock toBlock batchSize : Z) : list (Z * Z) :=
  map (nth_batch fromBlock toBlock batchSize) (seq 0 (batch_count fromBlock toBlock batchSize)).

(** The disk takes every write and every append. *)
Definition writes_succeed (env : Env) : Prop :=
  forall history f data,
    fs_fault env history (FsWrite f data) = None
    /\ fs_fault env history (FsAppend f data) = None.

(** No read of the balance of one of [holders] on [c] ever ends in a
    timeout. *)
Definition no_timeout (env : Env) (c : Contract) (holders : list Address) : Prop :=
  forall history addr error,
    addr ∈ holders ->
    rpc_balanceOf env history c addr = inl error -> is_timeout error = false.

(** ** The first version of the script

    [scrapeLP.js] scans a fixed range and has neither the pool gate nor the
    checkpoint.  Its [queryFilterPaginated], [getLPPairAddresses],
    [getLPHolders] and [getLPTokenUSDValue] are, word for word, the
    functions of the same names above; its holder qualification reads each
    balance once, with no retry. *)
Module ScrapeLP.
Section Script.
Variable env : Env.

(** The [for ... of] loop of [checkLPHolderValue] over the holders still to
    visit, with the array [qualifyingHolders] as filled so far. *)
Fixpoint checkLPHolderValue_from (lpAddress : Address) (lpContract : Contract)
    (lpTokenUSDValue : float) (decimals : Z) (holderAddresses : list Address)
    (qualifyingHolders : list HolderRecord) : M (list HolderRecord) :=
  match holderAddresses with
  | [] => ret qualifyingHolders
  | addr :: rest =>
      qualifyingHolders' <-
        try_catch
          (balanceBN <- contract_balanceOf env lpContract addr ;;
           let balance := units_to_number env balanceBN decimals in
           let holdingValue := (balance * lpTokenUSDValue)%float in
           if (5000 <=? holdingValue)%float then
             ret (qualifyingHolders
                    ++ [mkRecord lpAddress addr balance holdingValue])
           else ret qualifyingHolders)
          (fun err =>
             console_error (MsgBalanceError addr lpAddress err) ;;
             ret qualifyingHolders) ;;
      checkLPHolderValue_from lpAddress lpContract lpTokenUSDValue decimals rest
        qualifyingHolders'
  end.

Definition checkLPHolderValue (lpAddress : Address) (holderAddresses : list Address)
    (lpTokenUSDValue : float) (decimals : Z) : M (list HolderRecord) :=
  let lpContract := LPTokenContract lpAddress in
  checkLPHolderValue_from lpAddress lpContract lpTokenUSDValue decimals
    holderAddresses [].
End Script.
End ScrapeLP.

(** [keeps_checkpoint m]: from every state, [m] returns and leaves the
    checkpoint array as it was. *)
Definition keeps_checkpoint {A} (m : M A) : Prop :=
  forall s, exists a s', m s = (Return a, s') /\ checkpoint s' = checkpoint s.

(** [records_pool env lp m]: from every state, [m] returns, having added
    [lp] at the end of the checkpoint array and left the text of the whole
    array in the checkpoint file. *)
Definition records_pool (env : Env) (lp : Address) (m : M unit) : Prop :=
  forall s, exists s',
    m s = (Return tt, s')
    /\ checkpoint s' = checkpoint s ++ [lp]
    /\ files s' !! CHECKPOINT_FILENAME = Some (JSON_stringify env (checkpoint s ++ [lp])).

(** What the record sink appends after: the content of the file, or the
    header line when the file is missing. *)
Definition csv_base (old : option string) : string :=
  match old with
  | Some data => data
  | None => (CSV_HEADER ++ LF)%string
  end.

(** The CSV file after the rows of [records] were appended to a file that
    held [old], the sink being called only for a batch that is not empty. *)
Definition csv_after (env : Env) (old : option string) (records : list HolderRecord)
  : option string :=
  match records with
  | [] => old
  | _ => Some (csv_base old ++ csv_rows env records)%string
  end.

(** A record of the pool [lp] whose holding, the balance at [price] a token,
    is worth 5000 or more. *)
Definition qualifies (lp : Address) (price : float) (r : HolderRecord) : Prop :=
  lpAddress r = lp
  /\ holdingValue r = (balance r * price)%float
  /\ (5000 <=? holdingValue r)%float = true.


(** * Proofs *)

(** ** Strings and lists *)

Lemma string_app_assoc (a b c : string) : ((a ++ b) ++ c = a ++ (b ++ c))%string.
Proof. induction a as [|x a IH]; [done | exact (f_equal (String x) IH)]. Qed.

Lemma string_app_nil_r (a : string) : (a ++ "" = a)%string.
Proof. induction a as [|x a IH]; [done | exact (f_equal (String x) IH)]. Qed.

Lemma includes_spec (l : list Address) (x : Address) : includes l x = true <-> x ∈ l.
Proof.
  unfold includes. rewrite existsb_exists. split.
  - intros (y & Hy & Heq). apply String.eqb_eq in Heq. subst. by apply list_elem_of_In.
  - intros H. exists x. split; [by apply list_elem_of_In | apply String.eqb_refl].
Qed.

Lemma includes_false (l : list Address) (x : Address) : includes l x = false <-> x ∉ l.
Proof. rewrite <- includes_spec. destruct (includes l x); split; congruence. Qed.

(** ** Running a computation step by step *)

Section Steps.
Context {A B : Type}.

Lemma bind_return (m : M A) (k : A -> M B) s a s1 :
  m s = (Return a, s1) -> bind m k s = k a s1.
Proof. unfold bind. by intros ->. Qed.

Lemma bind_throw (m : M A) (k : A -> M B) s e s1 :
  m s = (Throw e, s1) -> bind m k s = (Throw e, s1).
Proof. unfold bind. by intros ->. Qed.

Lemma bind_diverge (m : M A) (k : A -> M B) s s1 :
  m s = (Diverge, s1) -> bind m k s = (Diverge, s1).
Proof. unfold bind. by intros ->. Qed.

Lemma try_return (m : M A) (handler : JSError -> M A) s a s1 :
  m s = (Return a, s1) -> try_catch m handler s = (Return a, s1).
Proof. unfold try_catch. by intros ->. Qed.

Lemma try_throw (m : M A) (handler : JSError -> M A) s e s1 :
  m s = (Throw e, s1) -> try_catch m handler s = handler e s1.
Proof. unfold try_catch. by intros ->. Qed.

Lemma try_diverge (m : M A) (handler : JSError -> M A) s s1 :
  m s = (Diverge, s1) -> try_catch m handler s = (Diverge, s1).
Proof. unfold try_catch. by intros ->. Qed.
End Steps.

Lemma emit_run (e : Effect) s : emit e s = (Return tt, record_effect e s).
Proof. done. Qed.

Lemma log_run (m : Message) s : console_log m s = (Return tt, record_effect (ConsoleLog m) s).
Proof. done. Qed.

Lemma error_run (m : Message) s :
  console_error m s = (Return tt, record_effect (ConsoleError m) s).
Proof. done. Qed.

Lemma await_run {A} (e : Effect) (oracle : list Effect -> JSError + A) s :
  await e oracle s =
  (match oracle (trace s) with inr a => Return a | inl err => Throw err end,
   record_effect e s).
Proof. unfold await. by destruct (oracle (trace s)). Qed.

Lemma fs_writeFileSync_run env f data s :
  fs_writeFileSync env f data s =
  match fs_fault env (trace s) (FsWrite f data) with
  | Some err => (Throw err, record_effect (FsWrite f data) s)
  | None =>
      (Return tt, mkState (trace s ++ [FsWrite f data]) (<[f := data]> (files s)) (checkpoint s))
  end.
Proof. done. Qed.

Lemma fs_appendFileSync_run env f data s :
  fs_appendFileSync env f data s =
  match fs_fault env (trace s) (FsAppend f data) with
  | Some err => (Throw err, record_effect (FsAppend f data) s)
  | None =>
      (Return tt,
       mkState (trace s ++ [FsAppend f data])
         (<[f := (match files s !! f with Some d => d | None => ""%string end ++ data)%string]>
            (files s))
         (checkpoint s))
  end.
Proof. done. Qed.

(** ** The rules of [sat] *)

Lemma csv_kept_refl s : csv_kept s s.
Proof. intros old H. exists ""%string. by rewrite string_app_nil_r. Qed.

Lemma csv_kept_trans s1 s2 s3 : csv_kept s1 s2 -> csv_kept s2 s3 -> csv_kept s1 s3.
Proof.
  intros H12 H23 old H. destruct (H12 old H) as [a Ha]. destruct (H23 _ Ha) as [b Hb].
  exists (a ++ b)%string. by rewrite <- string_app_assoc.
Qed.

Lemma evolves_refl Q s : evolves Q s s.
Proof.
  exists []. rewrite app_nil_r. repeat split; auto using csv_kept_refl.
Qed.

Lemma evolves_trans Q s1 s2 s3 : evolves Q s1 s2 -> evolves Q s2 s3 -> evolves Q s1 s3.
Proof.
  intros (l1 & Ht1 & HQ1 & Hc1 & Hk1) (l2 & Ht2 & HQ2 & Hc2 & Hk2).
  exists (l1 ++ l2). split; [by rewrite Ht2, Ht1, app_assoc|].
  split; [by apply Forall_app|]. split; [by eapply csv_kept_trans|].
  intros [H1 H2]%Forall_app.
  destruct (Hk1 H1) as [E1 F1]. destruct (Hk2 H2) as [E2 F2]. split; congruence.
Qed.

Lemma evolves_weaken (Q Q' : Effect -> Prop) s s' :
  (forall e, Q e -> Q' e) -> evolves Q s s' -> evolves Q' s s'.
Proof.
  intros HQ (l & Ht & Hl & Hc & Hk). exists l. repeat split; try tauto.
  by eapply Forall_impl. 
Qed.

Lemma evolves_effect (Q : Effect -> Prop) e s : Q e -> evolves Q s (record_effect e s).
Proof.
  intros HQ. exists [e]. split; [done|]. split; [by apply Forall_singleton|].
  split; [|done]. intros old H. exists ""%string. by rewrite string_app_nil_r.
Qed.

Section Rules.
Context {A B : Type} (Q : Effect -> Prop).

Lemma sat_ret (a : A) (Post : Completion A -> Prop) : Post (Return a) -> sat Q (ret a) Post.
Proof. intros H s. split; [apply evolves_refl | done]. Qed.

Lemma sat_throw (e : JSError) (Post : Completion A -> Prop) :
  Post (Throw e) -> sat Q (throw e) Post.
Proof. intros H s. split; [apply evolves_refl | done]. Qed.

Lemma sat_bind (m : M A) (k : A -> M B) (Mid : Completion A -> Prop)
    (Post : Completion B -> Prop) :
  sat Q m Mid ->
  (forall a, Mid (Return a) -> sat Q (k a) Post) ->
  (forall e, Mid (Throw e) -> Post (Throw e)) ->
  (Mid Diverge -> Post Diverge) ->
  sat Q (bind m k) Post.
Proof.
  intros Hm Hk He Hd s. unfold bind. destruct (Hm s) as [Hev Hmid].
  destruct (m s) as [[a|e|] s1]; simpl in *; auto.
  destruct (Hk a Hmid s1) as [Hev' Hpost]. split; [by eapply evolves_trans | done].
Qed.

Lemma sat_try_catch (m : M A) (handler : JSError -> M A) (Mid Post : Completion A -> Prop) :
  sat Q m Mid ->
  (forall e, Mid (Throw e) -> sat Q (handler e) Post) ->
  (forall a, Mid (Return a) -> Post (Return a)) ->
  (Mid Diverge -> Post Diverge) ->
  sat Q (try_catch m handler) Post.
Proof.
  intros Hm Hh Hr Hd s. unfold try_catch. destruct (Hm s) as [Hev Hmid].
  destruct (m s) as [[a|e|] s1]; simpl in *; auto.
  destruct (Hh e Hmid s1) as [Hev' Hpost]. split; [by eapply evolves_trans | done].
Qed.

Lemma sat_weaken (Q' : Effect -> Prop) (m : M A) (Post Post' : Completion A -> Prop) :
  (forall e, Q' e -> Q e) -> (forall r, Post' r -> Post r) ->
  sat Q' m Post' -> sat Q m Post.
Proof.
  intros HQ HP Hm s. destruct (Hm s). split; [by eapply evolves_weaken | auto].
Qed.

Lemma sat_await (e : Effect) (oracle : list Effect -> JSError + A)
    (Post : Completion A -> Prop) :
  Q e -> (forall a, Post (Return a)) -> (forall err, Post (Throw err)) ->
  sat Q (await e oracle) Post.
Proof.
  intros HQ Hr Ht s. unfold await.
  destruct (oracle (trace s)); simpl; split; auto using evolves_effect.
Qed.
End Rules.

Lemma sat_emit (Q : Effect -> Prop) (e : Effect) (Post : Completion unit -> Prop) :
  Q e -> Post (Return tt) -> sat Q (emit e) Post.
Proof. intros HQ HP s. split; [by apply evolves_effect | done]. Qed.


Lemma sat_bind_returns {A B} (Q : Effect -> Prop) (m : M A) (k : A -> M B)
    (P : A -> Prop) (Post : Completion B -> Prop) :
  sat Q m (returns P) -> (forall a, P a -> sat Q (k a) Post) -> sat Q (bind m k) Post.
Proof. intros Hm Hk. eapply sat_bind; eauto; simpl; tauto. Qed.

Lemma sat_bind_ends {A B} (Q : Effect -> Prop) (m : M A) (k : A -> M B)
    (P : A -> Prop) (P' : B -> Prop) :
  sat Q m (ends P) -> (forall a, P a -> sat Q (k a) (ends P')) ->
  sat Q (bind m k) (ends P').
Proof. intros Hm Hk. eapply sat_bind; eauto; simpl; tauto. Qed.

Lemma sat_catch {A} (Q : Effect -> Prop) (m : M A) (handler : JSError -> M A)
    (P : A -> Prop) (Post : Completion A -> Prop) :
  sat Q m (ends P) -> (forall e, sat Q (handler e) Post) ->
  (forall a, P a -> Post (Return a)) ->
  sat Q (try_catch m handler) Post.
Proof. intros Hm Hh Hr. eapply sat_try_catch; eauto; simpl; tauto. Qed.

Lemma sat_returns_ends {A} (Q : Effect -> Prop) (m : M A) (P : A -> Prop) :
  sat Q m (returns P) -> sat Q m (ends P).
Proof.
  apply sat_weaken; [done|]. intros [a|e|]; simpl; tauto.
Qed.

Lemma sat_post {A} (Q : Effect -> Prop) (m : M A) (Post Post' : Completion A -> Prop) :
  (forall r, Post' r -> Post r) -> sat Q m Post' -> sat Q m Post.
Proof. intros. by eapply sat_weaken. Qed.

Lemma sat_pre {A} (Q Q' : Effect -> Prop) (m : M A) (Post : Completion A -> Prop) :
  (forall e, Q' e -> Q e) -> sat Q' m Post -> sat Q m Post.
Proof. intros. by eapply sat_weaken. Qed.

Lemma sat_log (Q : Effect -> Prop) (m : Message) :
  Q (ConsoleLog m) -> sat Q (console_log m) (returns anything).
Proof. intros. by apply sat_emit. Qed.

Lemma sat_error (Q : Effect -> Prop) (m : Message) :
  Q (ConsoleError m) -> sat Q (console_error m) (returns anything).
Proof. intros. by apply sat_emit. Qed.

Lemma sat_sleep (Q : Effect -> Prop) (delay : Z) :
  Q (Sleep delay) -> sat Q (sleep delay) (returns anything).
Proof. intros. by apply sat_emit. Qed.

Lemma sat_table (Q : Effect -> Prop) (records : list HolderRecord) :
  Q (ConsoleTable records) -> sat Q (console_table records) (returns anything).
Proof. intros. by apply sat_emit. Qed.

(** ** The file system *)

Lemma evolves_step (Q : Effect -> Prop) (e : Effect) (s s' : State) :
  Q e -> trace s' = trace s ++ [e] -> csv_kept s s' ->
  (not_checkpoint_write e ->
   checkpoint s' = checkpoint s
   /\ files s' !! CHECKPOINT_FILENAME = files s !! CHECKPOINT_FILENAME) ->
  evolves Q s s'.
Proof.
  intros HQ Ht Hc Hk. exists [e]. split; [done|]. split; [by apply Forall_singleton|].
  split; [done|]. intros H. apply Hk. by apply Forall_singleton.
Qed.

Lemma names_differ : CSV_FILENAME <> CHECKPOINT_FILENAME.
Proof. discriminate. Qed.

Section FileRules.
Variable env : Env.
Variable Q : Effect -> Prop.

Lemma sat_fs_existsSync (f : string) :
  sat Q (fs_existsSync f) (returns anything).
Proof. intros s. split; [apply evolves_refl | done]. Qed.

Lemma sat_fs_readFileSync (f : string) :
  Q (FsRead f) -> sat Q (fs_readFileSync env f) (ends anything).
Proof.
  intros HQ s. unfold fs_readFileSync, fs_call.
  destruct (fs_fault env (trace s) (FsRead f)); simpl.
  - split; [by apply evolves_effect | done].
  - destruct (files s !! f); simpl; (split; [by apply evolves_effect | done]).
Qed.

Lemma sat_fs_appendFileSync (f data : string) :
  Q (FsAppend f data) -> sat Q (fs_appendFileSync env f data) (ends anything).
Proof.
  intros HQ s. unfold fs_appendFileSync, fs_call.
  destruct (fs_fault env (trace s) (FsAppend f data)); simpl.
  { split; [by apply evolves_effect | done]. }
  split; [|done]. apply (evolves_step Q (FsAppend f data)); simpl; auto.
  - intros old Hold. simpl. destruct (decide (f = CSV_FILENAME)) as [->|Hne].
    + rewrite Hold, lookup_insert_eq. eauto.
    + rewrite lookup_insert_ne by done. exists ""%string. by rewrite string_app_nil_r.
  - intros Hne. by rewrite lookup_insert_ne.
Qed.

Lemma sat_fs_writeFileSync (f data : string) :
  Q (FsWrite f data) -> f <> CSV_FILENAME -> sat Q (fs_writeFileSync env f data) (ends anything).
Proof.
  intros HQ Hf s. unfold fs_writeFileSync, fs_call.
  destruct (fs_fault env (trace s) (FsWrite f data)); simpl.
  { split; [by apply evolves_effect | done]. }
  split; [|done]. apply (evolves_step Q (FsWrite f data)); simpl; auto.
  - intros old Hold. simpl. rewrite lookup_insert_ne by done.
    exists ""%string. by rewrite string_app_nil_r.
  - intros Hne. by rewrite lookup_insert_ne.
Qed.
End FileRules.


(** ** What each function of the script does to the state *)

Ltac side := solve [simpl; unfold anything in *; simpl; auto].

Section Footprints.
Variable env : Env.

Lemma sat_contract_balanceOf c address delayMs :
  sat (balance_effect c address delayMs) (contract_balanceOf env c address) (ends anything).
Proof. apply sat_await; side. Qed.

Lemma sat_fetchBalance_from c address retries delayMs fuel :
  forall attempt,
    (Z.to_nat (retries - attempt + 1) <= fuel)%nat ->
    sat (balance_effect c address delayMs)
      (fetchBalance_from env fuel c address retries delayMs attempt) (ends anything).
Proof.
  induction fuel as [|fuel IH]; intros attempt Hfuel; simpl;
    destruct (attempt <=? retries) eqn:Hle; try (apply sat_ret; side); [lia|].
  eapply sat_bind_ends with (P := anything).
  - eapply sat_catch with (P := anything); [| |done].
    + eapply sat_bind_ends; [apply sat_contract_balanceOf|].
      intros. apply sat_ret; side.
    + intros error. destruct (is_timeout error); [|apply sat_throw; side].
      eapply sat_bind_returns; [apply sat_error; side|]. intros _ _.
      destruct (attempt <? retries); [|apply sat_throw; side].
      eapply sat_bind_returns; [apply sat_sleep; side|]. intros. apply sat_ret; side.
  - intros [balanceBN|] _; [apply sat_ret; side|]. apply IH. lia.
Qed.

Lemma sat_fetchBalanceWithRetries c address retries delayMs :
  sat (balance_effect c address delayMs)
    (fetchBalanceWithRetries env c address retries delayMs) (ends anything).
Proof. apply sat_fetchBalance_from. lia. Qed.

Lemma sat_queryFilterPaginated_from c filter toBlock batchSize fuel :
  0 < batchSize ->
  forall current events,
    (Z.to_nat (toBlock - current + 1) <= fuel)%nat ->
    sat (batch_effect c filter)
      (queryFilterPaginated_from env fuel c filter toBlock batchSize current events)
      (returns anything).
Proof.
  intros Hbs. induction fuel as [|fuel IH]; intros current events Hfuel; simpl;
    destruct (current <=? toBlock) eqn:Hle; try (apply sat_ret; side); [lia|].
  eapply sat_bind_returns; [apply sat_log; side|]. intros _ _.
  eapply sat_bind_returns with (P := anything).
  - eapply sat_catch with (P := anything); [| |done].
    + eapply sat_bind_ends with (P := anything); [apply sat_await; side|]. intros batch _.
      eapply sat_bind_ends; [apply sat_returns_ends, sat_log; side|].
      intros. apply sat_ret; side.
    + intros error. eapply sat_bind_returns; [apply sat_error; side|].
      intros. apply sat_ret; side.
  - intros events' _. apply IH. lia.
Qed.

Lemma sat_queryFilterPaginated c filter fromBlock toBlock batchSize :
  0 < batchSize ->
  sat (batch_effect c filter)
    (queryFilterPaginated env c filter fromBlock toBlock batchSize) (returns anything).
Proof. intros. by apply sat_queryFilterPaginated_from. Qed.

Lemma batch_effect_own e : batch_effect FactoryContract PairCreatedFilter e -> own_effect e.
Proof. destruct e as [| | | | | | | |[]|[]|]; simpl; tauto. Qed.

Lemma batch_effect_pair lp e :
  batch_effect (LPTokenContract lp) (TransferFilter (Some ZeroAddress) None) e ->
  pair_effect env lp e.
Proof. destruct e as [| | | | | | | |[]|[]|]; simpl; tauto. Qed.

Lemma balance_effect_pair lp address e :
  balance_effect (LPTokenContract lp) address 2000 e -> pair_effect env lp e.
Proof. destruct e as [| | | | | | | |[]|[]|]; simpl; tauto. Qed.

Lemma sat_getLPPairAddresses fromBlock toBlock batchSize :
  0 < batchSize ->
  sat own_effect (getLPPairAddresses env fromBlock toBlock batchSize) (returns anything).
Proof.
  intros Hbs. unfold getLPPairAddresses.
  eapply sat_bind_returns; [apply sat_log; side|]. intros _ _.
  eapply sat_bind_returns.
  - eapply sat_pre; [apply batch_effect_own | by apply sat_queryFilterPaginated].
  - intros. apply sat_ret; side.
Qed.

(** [appendRecordsToCSV] writes the header when the file is missing, then
    appends the rows. *)
Lemma appendRecordsToCSV_unfold records filename s :
  appendRecordsToCSV env records filename s =
  match files s !! filename with
  | Some _ =>
      (fs_appendFileSync env filename (csv_rows env records) ;;
       console_log (MsgAppended (Z.of_nat (length records)) filename)) s
  | None =>
      (fs_writeFileSync env filename (CSV_HEADER ++ LF)%string ;;
       fs_appendFileSync env filename (csv_rows env records) ;;
       console_log (MsgAppended (Z.of_nat (length records)) filename)) s
  end.
Proof.
  unfold appendRecordsToCSV, bind at 1, fs_existsSync.
  destruct (files s !! filename); simpl; [|done].
  unfold bind at 1. done.
Qed.

Section Pool.
Variable lp : Address.
Local Abbreviation Q := (pair_effect env lp).

Lemma sat_getLPHolders fromBlock toBlock batchSize :
  0 < batchSize ->
  sat Q (getLPHolders env lp fromBlock toBlock batchSize) (returns anything).
Proof.
  intros Hbs. unfold getLPHolders. eapply sat_bind_returns.
  - eapply sat_pre; [apply batch_effect_pair | by apply sat_queryFilterPaginated].
  - intros. apply sat_ret; side.
Qed.

Lemma sat_getLiquidityPoolValue decimals :
  sat Q (getLiquidityPoolValue env lp decimals) (returns anything).
Proof.
  unfold getLiquidityPoolValue. eapply sat_catch with (P := anything); [| |done].
  - eapply sat_bind_ends with (P := anything); [apply sat_await; side|]. intros bn _.
    eapply sat_bind_ends with (P := anything); [apply sat_ret; side|].
    intros. apply sat_ret; side.
  - intros err. eapply sat_bind_returns; [apply sat_error; side|].
    intros. apply sat_ret; side.
Qed.

Lemma sat_checkLPHolderValue_from price decimals holders :
  forall qualifyingHolders,
    of_pool lp qualifyingHolders ->
    sat Q
      (checkLPHolderValue_from env lp (LPTokenContract lp) price decimals holders
         qualifyingHolders)
      (returns (of_pool lp)).
Proof.
  induction holders as [|addr rest IH]; intros acc Hacc; simpl; [apply sat_ret; side|].
  eapply sat_bind_returns with (P := of_pool lp); [|intros; by apply IH].
  eapply sat_catch with (P := of_pool lp); [| |done].
  - eapply sat_bind_ends with (P := anything).
    + eapply sat_pre; [apply balance_effect_pair | apply sat_fetchBalanceWithRetries].
    + intros [bn|] _; [|apply sat_throw; side].
      destruct (5000 <=? _)%float; apply sat_ret; simpl; [|done].
      apply Forall_app. split; [done|]. by apply Forall_singleton.
  - intros err. eapply sat_bind_returns; [apply sat_error; side|].
    intros. apply sat_ret; side.
Qed.

Lemma sat_checkLPHolderValue holders price decimals :
  sat Q (checkLPHolderValue env lp holders price decimals) (returns (of_pool lp)).
Proof. apply sat_checkLPHolderValue_from. constructor. Qed.

Lemma sat_appendRecordsToCSV records :
  records <> [] -> of_pool lp records ->
  sat Q (appendRecordsToCSV env records CSV_FILENAME) (ends anything).
Proof.
  intros Hne Hof.
  assert (Happend :
    sat Q (fs_appendFileSync env CSV_FILENAME (csv_rows env records) ;;
           console_log (MsgAppended (Z.of_nat (length records)) CSV_FILENAME))
      (ends anything)).
  { eapply sat_bind_ends with (P := anything).
    - apply sat_fs_appendFileSync. simpl. eauto.
    - intros. apply sat_returns_ends, sat_log; side. }
  intros s. rewrite appendRecordsToCSV_unfold.
  destruct (files s !! CSV_FILENAME) as [old|] eqn:Hfile; [apply Happend|].
  pose proof (fs_writeFileSync_run env CSV_FILENAME (CSV_HEADER ++ LF)%string s) as Hrun.
  destruct (fs_fault env _ _).
  { rewrite (bind_throw _ _ _ _ _ Hrun). split; [|done].
    apply evolves_effect. simpl. auto. }
  rewrite (bind_return _ _ _ _ _ Hrun).
  match type of Hrun with _ = (_, ?s1) => set (s' := s1) end.
  destruct (Happend s') as [Hev Hpost]. split; [|done].
  eapply evolves_trans; [|exact Hev].
  apply (evolves_step Q (FsWrite CSV_FILENAME (CSV_HEADER ++ LF)%string)); simpl; auto.
  - intros old Hold. congruence.
  - intros _. by rewrite lookup_insert_ne by apply names_differ.
Qed.

Lemma sat_record_processed :
  sat Q
    (checkpoint_push lp ;;
     checkpoint <- get_checkpoint ;;
     saveCheckpoint env CHECKPOINT_FILENAME checkpoint)
    (ends anything).
Proof.
  intros s.
  set (s1 := mkState (trace s) (files s) (checkpoint s ++ [lp])).
  assert (Hrun :
    (checkpoint_push lp ;;
     checkpoint <- get_checkpoint ;;
     saveCheckpoint env CHECKPOINT_FILENAME checkpoint) s
    = fs_writeFileSync env CHECKPOINT_FILENAME (JSON_stringify env (checkpoint s1)) s1)
    by done.
  rewrite Hrun, fs_writeFileSync_run.
  set (e := FsWrite _ _).
  assert (Hev : forall s', trace s' = trace s ++ [e] ->
            files s' !! CSV_FILENAME = files s !! CSV_FILENAME -> evolves Q s s').
  { intros s' Ht Hf. exists [e]. split; [done|].
    split; [apply Forall_singleton; simpl; auto|]. split.
    - intros old Hold. exists ""%string. by rewrite string_app_nil_r, Hf.
    - intros H. rewrite Forall_singleton in H. by destruct H. }
  destruct (fs_fault env _ _); simpl; (split; [apply Hev; simpl; auto | done]).
  by rewrite lookup_insert_ne by (symmetry; apply names_differ).
Qed.

Lemma sat_processPair fromBlock toBlock batchSize :
  0 < batchSize ->
  sat Q (processPair env fromBlock toBlock batchSize lp) (ends anything).
Proof.
  intros Hbs. unfold processPair.
  eapply sat_bind_ends; [apply sat_returns_ends, sat_getLiquidityPoolValue|].
  intros poolValue _.
  eapply sat_bind_ends; [apply sat_returns_ends, sat_log; side|]. intros _ _.
  destruct (20000 <=? poolValue)%float.
  { eapply sat_bind_ends; [apply sat_returns_ends, sat_log; side|]. intros _ _.
    apply sat_record_processed. }
  eapply sat_bind_ends; [by apply sat_returns_ends, sat_getLPHolders|].
  intros holders _.
  eapply sat_bind_ends; [apply sat_returns_ends, sat_log; side|]. intros _ _.
  eapply sat_bind_ends with (P := anything); [apply sat_ret; side|]. intros price _.
  eapply sat_bind_ends; [apply sat_returns_ends, sat_checkLPHolderValue|].
  intros qualifyingHolders Hof.
  eapply sat_bind_ends; [apply sat_returns_ends, sat_log; side|]. intros _ _.
  eapply sat_bind_ends; [apply sat_returns_ends, sat_table; side|]. intros _ _.
  eapply sat_bind_ends with (P := anything); [|intros; apply sat_record_processed].
  destruct (0 <? Z.of_nat (length qualifyingHolders)) eqn:Hlen; [|apply sat_ret; side].
  apply sat_appendRecordsToCSV; [|done]. intros ->. discriminate Hlen.
Qed.

Lemma sat_processPairGuarded fromBlock toBlock batchSize :
  0 < batchSize ->
  sat Q (processPairGuarded env fromBlock toBlock batchSize lp) (returns anything).
Proof.
  intros Hbs. unfold processPairGuarded.
  eapply sat_bind_returns; [apply sat_log; side|]. intros _ _.
  eapply sat_catch; [by apply sat_processPair| |done].
  intros err. apply sat_error; side.
Qed.
End Pool.

Lemma sat_processPairs fromBlock toBlock batchSize pools :
  0 < batchSize ->
  sat (fun e => exists lp, lp ∈ pools /\ pair_effect env lp e)
    (processPairs env fromBlock toBlock batchSize pools) (returns anything).
Proof.
  intros Hbs. induction pools as [|lp rest IH]; simpl; [apply sat_ret; side|].
  eapply sat_bind_returns.
  - eapply sat_pre; [|by apply sat_processPairGuarded].
    intros e He. exists lp. split; [apply list_elem_of_here | done].
  - intros _ _. eapply sat_pre; [|exact IH].
    intros e (lp' & Hin & He). exists lp'. split; [by apply list_elem_of_further | done].
Qed.

Lemma sat_loadCheckpoint :
  sat own_effect (loadCheckpoint env CHECKPOINT_FILENAME) (returns anything).
Proof.
  unfold loadCheckpoint. eapply sat_bind_returns; [apply sat_fs_existsSync|].
  intros [] _; [|apply sat_ret; side].
  eapply sat_catch with (P := anything); [| |done].
  - eapply sat_bind_ends; [by apply sat_fs_readFileSync|]. intros data _.
    destruct (JSON_parse env data); [apply sat_throw; side | apply sat_ret; side].
  - intros e. eapply sat_bind_returns; [apply sat_error; side|]. intros. apply sat_ret; side.
Qed.
End Footprints.


(** ** The run of [main] *)

Lemma unprocessed_elem (cp pairs : list Address) (lp : Address) :
  lp ∈ unprocessed cp pairs <-> lp ∈ pairs /\ lp ∉ cp.
Proof.
  unfold unprocessed. rewrite list_elem_of_In, filter_In, <- list_elem_of_In.
  rewrite negb_true_iff, includes_false. tauto.
Qed.

(** Either the chain height cannot be read and [main] throws at once, or
    [main] returns, having shown the checkpoint it loaded exactly once. *)
Lemma main_run (env : Env) (disk : gmap string string) :
  (exists err,
     main env (start disk) = (Throw err, record_effect RpcGetBlockNumber (start disk)))
  \/ exists cp before after s',
       main env (start disk) = (Return tt, s')
       /\ trace s' = before ++ [ConsoleLog (MsgCheckpointLoaded cp)] ++ after
       /\ Forall own_effect before
       /\ Forall (after_load env cp) after
       /\ csv_kept (start disk) s'.
Proof.
  unfold main. set (s0 := start disk).
  pose proof (await_run RpcGetBlockNumber (rpc_getBlockNumber env) s0) as H1.
  fold (provider_getBlockNumber env) in H1.
  destruct (rpc_getBlockNumber env (trace s0)) as [err|latest].
  { left. exists err. by rewrite (bind_throw _ _ _ _ _ H1). }
  right. rewrite (bind_return _ _ _ _ _ H1). clear H1.
  set (s1 := record_effect RpcGetBlockNumber s0).
  rewrite (bind_return _ _ _ _ _ (log_run _ s1)).
  set (s2 := record_effect _ s1).
  destruct (sat_loadCheckpoint env s2) as [Hev3 Hpost3].
  destruct (loadCheckpoint env CHECKPOINT_FILENAME s2) as [[loaded|?|] s3] eqn:H3;
    simpl in Hpost3; try done.
  rewrite (bind_return _ _ _ _ _ H3).
  unfold set_checkpoint at 1, bind at 1. unfold get_checkpoint at 1, bind at 1. simpl.
  rewrite (bind_return _ _ _ _ _ (log_run _ _)).
  set (s4 := record_effect _ _).
  assert (Hbs : 0 < 5000) by lia.
  destruct (sat_getLPPairAddresses env 18672539 latest 5000 Hbs s4) as [Hev5 Hpost5].
  destruct (getLPPairAddresses env 18672539 latest 5000 s4) as [[pairs|?|] s5] eqn:H5;
    simpl in Hpost5; try done.
  rewrite (bind_return _ _ _ _ _ H5).
  rewrite (bind_return _ _ _ _ _ (log_run _ s5)).
  set (s6 := record_effect _ s5).
  rewrite (bind_return _ _ _ _ _ (log_run _ s6)).
  set (s7 := record_effect _ s6).
  destruct (sat_processPairs env 18672539 latest 5000 (unprocessed loaded pairs) Hbs s7)
    as [Hev8 Hpost8].
  destruct (processPairs env 18672539 latest 5000 (unprocessed loaded pairs) s7)
    as [[[]|?|] s8] eqn:H8; simpl in Hpost8; try done.
  rewrite (bind_return _ _ _ _ _ H8). rewrite log_run.
  destruct Hev3 as (l3 & Ht3 & HQ3 & Hc3 & _).
  destruct Hev5 as (l5 & Ht5 & HQ5 & Hc5 & _).
  destruct Hev8 as (l8 & Ht8 & HQ8 & Hc8 & _).
  simpl in Ht3, Ht5, Ht8, Hc3, Hc5, Hc8.
  exists loaded,
    ([RpcGetBlockNumber; ConsoleLog (MsgScraping 18672539 latest 5000)] ++ l3),
    (l5 ++ [ConsoleLog (MsgFoundPairs pairs);
            ConsoleLog (MsgProcessingNew (Z.of_nat (length (unprocessed loaded pairs))))]
        ++ l8 ++ [ConsoleLog MsgScrapingComplete]),
    (record_effect (ConsoleLog MsgScrapingComplete) s8).
  split; [done|]. split.
  { unfold record_effect at 1. simpl trace. rewrite Ht8, Ht5, Ht3.
    simpl. rewrite <- !app_assoc. done. }
  split.
  { apply Forall_app. split; [|done]. repeat constructor. }
  split.
  { unfold after_load. rewrite !Forall_app. repeat split.
    - eapply Forall_impl; [exact HQ5|]. simpl. tauto.
    - repeat constructor; simpl; tauto.
    - eapply Forall_impl; [exact HQ8|]. simpl. intros e (lp & Hin & He).
      right. exists lp. split; [|done]. by apply unprocessed_elem in Hin as [_ ?].
    - repeat constructor; simpl; tauto. }
  intros old Hold.
  destruct (Hc3 old Hold) as [a Ha]. destruct (Hc5 _ Ha) as [b Hb].
  destruct (Hc8 _ Hb) as [c Hc].
  change (exists suffix, files s8 !! CSV_FILENAME = Some (old ++ suffix)%string).
  rewrite Hc. exists (a ++ b ++ c)%string. by rewrite !string_app_assoc.
Qed.

Lemma own_effect_not_loaded cp e :
  own_effect e -> e <> ConsoleLog (MsgCheckpointLoaded cp).
Proof. intros H ->. exact H. Qed.

Lemma pair_effect_not_loaded env lp cp e :
  pair_effect env lp e -> e <> ConsoleLog (MsgCheckpointLoaded cp).
Proof. intros H ->. exact H. Qed.

Lemma own_effect_leaves_alone env P e : own_effect e -> leaves_alone env P e.
Proof.
  destruct e as [|c ? ? ?|c|c ?| | | | | | |]; simpl; try tauto.
  intros [-> _]. discriminate.
Qed.

Lemma pair_effect_leaves_alone env lp P e :
  lp <> P -> pair_effect env lp e -> leaves_alone env P e.
Proof.
  intros Hne. destruct e as [|c ? ? ?|c|c ?| | | | | | |]; simpl; try tauto.
  - intros [-> _]. congruence.
  - intros ->. congruence.
  - intros ->. congruence.
  - intros (_ & records & _ & Hof & ->). exists records. split; [done|].
    eapply Forall_impl; [exact Hof|]. simpl. congruence.
Qed.


(** ** The retry loop *)

Lemma extend_nil s : extend s [] = s.
Proof. destruct s. unfold extend. simpl. by rewrite app_nil_r. Qed.

Lemma extend_extend s l1 l2 : extend (extend s l1) l2 = extend s (l1 ++ l2).
Proof. unfold extend. simpl. by rewrite app_assoc. Qed.

Lemma record_effect_extend e s : record_effect e s = extend s [e].
Proof. done. Qed.

Lemma failed_attempts_S c address delayMs first n :
  failed_attempts c address delayMs first (S n) =
  [RpcBalanceOf c address; ConsoleError (MsgAttemptTimeout first address); Sleep delayMs]
  ++ failed_attempts c address delayMs (first + 1) n.
Proof.
  unfold failed_attempts. simpl. rewrite Z.add_0_r. do 3 f_equal.
  rewrite <- seq_shift, flat_map_concat_map, map_map, <- flat_map_concat_map.
  apply flat_map_ext. intros i. do 4 f_equal. lia.
Qed.

Lemma pauses_failed_attempts c address delayMs first n :
  pauses (failed_attempts c address delayMs first n) = repeat delayMs n.
Proof.
  revert first. induction n as [|n IH]; intros first; [done|].
  rewrite failed_attempts_S. simpl. f_equal. apply IH.
Qed.

Lemma pauses_app l1 l2 : pauses (l1 ++ l2) = pauses l1 ++ pauses l2.
Proof. unfold pauses. by rewrite flat_map_app. Qed.

Section Retry.
Variable env : Env.
Variables (c : Contract) (address : Address) (retries delayMs : Z).

Local Abbreviation loop := (fun fuel => fetchBalance_from env fuel c address retries delayMs).

Lemma fetch_resolves fuel attempt s v :
  attempt <= retries ->
  rpc_balanceOf env (trace s) c address = inr v ->
  loop (S fuel) attempt s = (Return (Some v), extend s [RpcBalanceOf c address]).
Proof.
  intros Hle Hans. simpl. apply Z.leb_le in Hle. rewrite Hle.
  unfold bind, try_catch, contract_balanceOf, await, ret. by rewrite Hans.
Qed.

Lemma fetch_rejects fuel attempt s error :
  attempt <= retries ->
  rpc_balanceOf env (trace s) c address = inl error ->
  is_timeout error = false ->
  loop (S fuel) attempt s = (Throw error, extend s [RpcBalanceOf c address]).
Proof.
  intros Hle Hans Hto. simpl. apply Z.leb_le in Hle. rewrite Hle.
  unfold bind, try_catch, contract_balanceOf, await, throw. by rewrite Hans, Hto.
Qed.

Lemma fetch_gives_up fuel s error :
  rpc_balanceOf env (trace s) c address = inl error ->
  is_timeout error = true ->
  loop (S fuel) retries s =
  (Throw error,
   extend s [RpcBalanceOf c address; ConsoleError (MsgAttemptTimeout retries address)]).
Proof.
  intros Hans Hto. simpl. rewrite Z.leb_refl, Z.ltb_irrefl.
  unfold bind, try_catch, contract_balanceOf, await, throw, console_error, emit.
  rewrite Hans, Hto. simpl. unfold extend, record_effect. simpl.
  by rewrite <- app_assoc.
Qed.

Lemma fetch_pauses fuel attempt s error :
  attempt < retries ->
  rpc_balanceOf env (trace s) c address = inl error ->
  is_timeout error = true ->
  loop (S fuel) attempt s =
  loop fuel (attempt + 1)
    (extend s [RpcBalanceOf c address; ConsoleError (MsgAttemptTimeout attempt address);
               Sleep delayMs]).
Proof.
  intros Hlt Hans Hto. simpl.
  assert (Hle : (attempt <=? retries) = true) by (apply Z.leb_le; lia).
  apply Z.ltb_lt in Hlt. rewrite Hle, Hlt.
  unfold bind at 1, try_catch, bind at 1, contract_balanceOf, await.
  rewrite Hans, Hto. unfold bind at 1, console_error, emit. unfold bind at 1, sleep, emit.
  simpl. unfold extend, record_effect. simpl. by rewrite <- !app_assoc.
Qed.

(** [n] timeouts in a row, each with attempts to spare, bring the loop
    [n] turns further. *)
Lemma fetch_after_timeouts n :
  forall fuel attempt s,
    attempt + Z.of_nat n <= retries ->
    (forall k, (k < n)%nat ->
       exists error,
         rpc_balanceOf env
           (trace s ++ failed_attempts c address delayMs attempt k) c address = inl error
         /\ is_timeout error = true) ->
    loop (n + fuel)%nat attempt s =
    loop fuel (attempt + Z.of_nat n)
      (extend s (failed_attempts c address delayMs attempt n)).
Proof.
  induction n as [|n IH]; intros fuel attempt s Hle Hto.
  - simpl. by rewrite Z.add_0_r, extend_nil.
  - destruct (Hto 0%nat) as (error & Hans & Htimeout); [lia|].
    simpl in Hans. rewrite app_nil_r in Hans.
    change (S n + fuel)%nat with (S (n + fuel)).
    rewrite (fetch_pauses _ _ _ error) by (done || lia).
    rewrite IH.
    + rewrite extend_extend, <- failed_attempts_S. f_equal. lia.
    + lia.
    + intros k Hk. destruct (Hto (S k)) as (e & He & Hte); [lia|].
      exists e. split; [|done]. rewrite <- He. f_equal.
      rewrite failed_attempts_S. simpl. by rewrite <- app_assoc.
Qed.
End Retry.


(** ** Pagination *)

Lemma tiles_covers lo hi l :
  tiles lo hi l -> forall b, lo <= b <= hi <-> exists r, r ∈ l /\ r.1 <= b <= r.2.
Proof.
  induction 1 as [lo hi Hle|lo mid hi l Hlo Hmid Htiles IH]; intros b.
  - split.
    + intros Hb. exists (lo, hi). split; [apply list_elem_of_here | done].
    + intros (r & Hr & Hb). apply list_elem_of_singleton in Hr. by subst.
  - split.
    + intros Hb. destruct (Z_le_gt_dec b mid) as [Hbm|Hbm].
      * exists (lo, mid). split; [apply list_elem_of_here | simpl; lia].
      * destruct (proj1 (IH b)) as (r & Hr & Hbr); [lia|].
        exists r. split; [by apply list_elem_of_further | done].
    + intros (r & Hr & Hb). apply elem_of_cons in Hr as [->|Hr].
      * simpl in Hb. lia.
      * assert (mid + 1 <= b <= hi) by (apply IH; eauto). lia.
Qed.

Lemma tiles_bounds lo hi l r : tiles lo hi l -> r ∈ l -> lo <= r.1 /\ r.1 <= r.2 /\ r.2 <= hi.
Proof.
  induction 1 as [lo hi Hle|lo mid hi l Hlo Hmid Htiles IH]; intros Hr.
  - apply list_elem_of_singleton in Hr. subst. simpl. lia.
  - apply elem_of_cons in Hr as [->|Hr]; [simpl; lia|]. specialize (IH Hr). lia.
Qed.

(** Of two ranges of a tiling, the earlier one ends before the later one
    starts. *)
Lemma tiles_apart lo hi l :
  tiles lo hi l ->
  forall i j r1 r2, l !! i = Some r1 -> l !! j = Some r2 -> (i < j)%nat -> r1.2 < r2.1.
Proof.
  induction 1 as [lo hi Hle|lo mid hi l Hlo Hmid Htiles IH]; intros i j r1 r2 H1 H2 Hij.
  - destruct i, j; simpl in *; try lia; by try destruct j.
  - destruct j as [|j]; [lia|]. simpl in H2. destruct i as [|i].
    + simpl in H1. injection H1 as <-. simpl.
      apply list_elem_of_lookup_2 in H2. pose proof (tiles_bounds _ _ _ _ Htiles H2). lia.
    + simpl in H1. eapply IH; eauto. lia.
Qed.

(** Each range of a tiling starts right after the one before it. *)
Lemma tiles_consecutive lo hi l :
  tiles lo hi l ->
  forall i r1 r2, l !! i = Some r1 -> l !! S i = Some r2 -> r2.1 = r1.2 + 1.
Proof.
  induction 1 as [lo hi Hle|lo mid hi l Hlo Hmid Htiles IH]; intros i r1 r2 H1 H2.
  - by destruct i.
  - destruct i as [|i].
    + simpl in *. injection H1 as <-. simpl. inversion Htiles; subst; simpl in H2; by injection H2 as <-.
    + simpl in *. eauto.
Qed.

Lemma tiles_first lo hi l : tiles lo hi l -> exists r, l !! 0%nat = Some r /\ r.1 = lo.
Proof. destruct 1; eauto. Qed.

Lemma tiles_final lo hi l : tiles lo hi l -> exists r, last l = Some r /\ r.2 = hi.
Proof.
  induction 1 as [lo hi Hle|lo mid hi l Hlo Hmid Htiles (r & Hr & Hhi)]; [eauto|].
  exists r. split; [|done]. destruct l; [inversion Htiles | done].
Qed.

Lemma answers_queried env c filter h ranges outcomes new :
  answers env c filter h ranges outcomes new ->
  queried new = ranges /\ length outcomes = length ranges.
Proof.
  induction 1 as [|h r ranges outcome outcomes new Hout Hrest [IH1 IH2]]; [done|].
  unfold queried in *. rewrite flat_map_app, IH1. simpl.
  destruct r, outcome; (split; [done | by f_equal]).
Qed.

Section Pages.
Variable env : Env.
Variables (c : Contract) (filter : Filter) (toBlock batchSize : Z).

Local Abbreviation pages :=
  (fun fuel => queryFilterPaginated_from env fuel c filter toBlock batchSize).

(** One turn of the loop: the batch from [current] is queried, and its
    events, if any, join the ones collected so far. *)
Lemma page_turn fuel current events s :
  current <= toBlock ->
  pages (S fuel) current events s =
  let end_ := Z.min (current + batchSize - 1) toBlock in
  let outcome :=
    rpc_queryFilter env (trace s ++ [ConsoleLog (MsgQuerying current end_)]) c filter
      current end_ in
  pages fuel (current + batchSize) (events ++ batch_events outcome)
    (extend s (batch_effects c filter (current, end_) outcome)).
Proof.
  intros Hle. cbv zeta. simpl. apply Z.leb_le in Hle. rewrite Hle.
  unfold bind at 1, console_log, emit.
  unfold bind at 1, try_catch, bind at 1, contract_queryFilter, await. simpl.
  destruct (rpc_queryFilter env _ c filter _ _) as [error|batch]; simpl.
  - rewrite app_nil_r. unfold extend, batch_effects, record_effect. simpl.
    by rewrite <- !app_assoc.
  - unfold extend, batch_effects, record_effect. simpl. by rewrite <- !app_assoc.
Qed.

Lemma pages_run fuel :
  0 < batchSize ->
  forall current events s,
    (Z.to_nat (toBlock - current + 1) <= fuel)%nat ->
    exists ranges outcomes new,
      pages fuel current events s
      = (Return (events ++ flat_map batch_events outcomes), extend s new)
      /\ answers env c filter (trace s) ranges outcomes new
      /\ (current <= toBlock -> tiles current toBlock ranges)
      /\ (toBlock < current -> ranges = [])
      /\ Forall (fun r => range_size r <= batchSize) ranges.
Proof.
  intros Hbs. induction fuel as [|fuel IH]; intros current events s Hfuel.
  - exists [], [], []. assert (Hgt : (current <=? toBlock) = false) by (apply Z.leb_gt; lia).
    simpl. rewrite Hgt, app_nil_r, extend_nil.
    repeat split; [constructor | lia | constructor].
  - destruct (Z_le_gt_dec current toBlock) as [Hle|Hgt].
    + rewrite page_turn by done. cbv zeta.
      set (r := (current, Z.min (current + batchSize - 1) toBlock)).
      set (outcome := rpc_queryFilter env _ c filter _ _).
      destruct (IH (current + batchSize) (events ++ batch_events outcome)
                  (extend s (batch_effects c filter r outcome)))
        as (ranges & outcomes & new & Hrun & Hans & Htiles & Hnone & Hsize); [lia|].
      exists (r :: ranges), (outcome :: outcomes), (batch_effects c filter r outcome ++ new).
      rewrite Hrun, extend_extend. simpl. rewrite <- app_assoc.
      split; [done|]. split; [by constructor|]. split; [|split; [lia|]].
      * intros _. destruct (Z_le_gt_dec (current + batchSize) toBlock) as [Hmore|Hlast].
        -- subst r. rewrite Z.min_l by lia. apply tiles_next; [lia | lia |].
           replace (current + batchSize - 1 + 1) with (current + batchSize) by lia. auto.
        -- subst r. rewrite Z.min_r by lia. rewrite Hnone by lia. by apply tiles_last.
      * constructor; [|done]. unfold range_size. simpl. lia.
    + exists [], [], []. assert (Hf : (current <=? toBlock) = false) by (apply Z.leb_gt; lia).
      simpl. rewrite Hf, app_nil_r, extend_nil.
      repeat split; [constructor | lia | constructor].
Qed.
End Pages.


(** ** Holder qualification *)

(** Comparing two doubles the other way round gives the opposite answer. *)
Lemma SFcompare_antisym (x y : spec_float) :
  SFcompare y x = match SFcompare x y with Some c => Some (CompOpp c) | None => None end.
Proof.
  destruct x as [sx|sx| |sx mx ex], y as [sy|sy| |sy my ey]; simpl;
    try reflexivity; try (destruct sx; reflexivity); try (destruct sy; reflexivity);
    try (destruct sx, sy; reflexivity).
  change (PosDef.Pos.compare_cont Eq my mx) with (Pos.compare my mx).
  change (PosDef.Pos.compare_cont Eq mx my) with (Pos.compare mx my).
  rewrite (Z.compare_antisym ex ey), (Pos.compare_antisym mx my).
  destruct sx, sy; try reflexivity; destruct (ex ?= ey)%Z; simpl; try reflexivity.
Qed.

(** A double below the threshold does not reach it. *)
Lemma below_not_reached (v threshold : float) :
  (v <? threshold)%float = true -> (threshold <=? v)%float = false.
Proof.
  rewrite ltb_spec, leb_spec. unfold SFltb, SFleb.
  rewrite (SFcompare_antisym (Prim2SF v) (Prim2SF threshold)).
  by destruct (SFcompare (Prim2SF v) (Prim2SF threshold)) as [[]|].
Qed.

Section Holders.
Variable env : Env.
Variables (lp : Address) (price : float) (decimals : Z).

(** One turn of the loop of [checkLPHolderValue]. *)
Lemma holder_turn addr rest acc s read s1 :
  fetchBalanceWithRetries env (LPTokenContract lp) addr 3 2000 s = (read, s1) ->
  read <> Diverge ->
  checkLPHolderValue_from env lp (LPTokenContract lp) price decimals (addr :: rest) acc s
  = checkLPHolderValue_from env lp (LPTokenContract lp) price decimals rest
      (acc ++ qualifying env lp price decimals addr read) (after_read lp addr read s1).
Proof.
  intros Hread Hend. simpl. unfold bind at 1, try_catch, bind at 1. rewrite Hread.
  destruct read as [[bn|]|err|]; simpl; try done.
  - destruct (5000 <=? _)%float; simpl; [done | by rewrite app_nil_r].
  - by rewrite app_nil_r.
  - by rewrite app_nil_r.
Qed.

Lemma holders_run holders :
  forall acc s,
    exists reads s',
      balance_reads env lp s holders reads s'
      /\ checkLPHolderValue_from env lp (LPTokenContract lp) price decimals holders acc s
         = (Return (acc ++ qualified env lp price decimals holders reads), s').
Proof.
  induction holders as [|addr rest IH]; intros acc s.
  - exists [], s. split; [constructor|]. simpl. by rewrite app_nil_r.
  - destruct (fetchBalanceWithRetries env (LPTokenContract lp) addr 3 2000 s)
      as [read s1] eqn:Hread.
    assert (Hend : read <> Diverge).
    { destruct (sat_fetchBalanceWithRetries env (LPTokenContract lp) addr 3 2000 s)
        as [_ Hpost]. rewrite Hread in Hpost. by intros ->. }
    destruct (IH (acc ++ qualifying env lp price decimals addr read)
                (after_read lp addr read s1)) as (reads & s' & Hreads & Hrun).
    exists (read :: reads), s'. split; [by econstructor|].
    rewrite (holder_turn _ _ _ _ _ _ Hread Hend), Hrun.
    unfold qualified. simpl. by rewrite <- app_assoc.
Qed.

Lemma balance_reads_length s holders reads s' :
  balance_reads env lp s holders reads s' -> length reads = length holders.
Proof. induction 1; simpl; auto. Qed.

(** The holders of the records kept are holders of the list, in the order
    of the list. *)
Lemma qualified_sublist holders reads :
  sublist (map holderAddress (qualified env lp price decimals holders reads)) holders.
Proof.
  revert reads. induction holders as [|addr rest IH]; intros [|read reads];
    unfold qualified; simpl; try apply sublist_nil_l.
  rewrite map_app. fold (qualified env lp price decimals rest reads).
  destruct read as [[bn|]|err|]; simpl; try (apply sublist_cons, IH).
  destruct (5000 <=? _)%float; simpl; [apply sublist_skip, IH | apply sublist_cons, IH].
Qed.
End Holders.


(** ** Removing duplicates *)

(** Filling a [Set] from [l] adds to [acc] the elements of [l] that are new,
    each where it is first met. *)
Lemma Set_add_fold (l acc prefix : list Address) :
  (forall x, x ∈ acc <-> x ∈ prefix) ->
  fold_left Set_add l acc = acc ++ keep_first prefix l.
Proof.
  revert acc prefix. induction l as [|y l IH]; intros acc prefix Hsame; simpl.
  - by rewrite app_nil_r.
  - unfold Set_add at 2. fold (includes acc y).
    destruct (includes acc y) eqn:Hacc.
    + apply includes_spec in Hacc.
      assert (Hp : includes prefix y = true) by (apply includes_spec, Hsame, Hacc).
      rewrite Hp. simpl. apply IH. intros x.
      rewrite elem_of_app, list_elem_of_singleton, Hsame. split; [tauto|].
      intros [?| ->]; [done | by apply Hsame].
    + apply includes_false in Hacc.
      assert (Hp : includes prefix y = false) by (apply includes_false; by rewrite <- Hsame).
      rewrite Hp. simpl. rewrite (IH (acc ++ [y]) (prefix ++ [y])).
      * by rewrite <- app_assoc.
      * intros x. rewrite !elem_of_app, Hsame. tauto.
Qed.

Lemma keep_first_positions (prefix l : list Address) :
  keep_first prefix l =
  flat_map
    (fun i =>
       match (prefix ++ l) !! i with
       | Some x => if includes (take i (prefix ++ l)) x then [] else [x]
       | None => []
       end)
    (seq (length prefix) (length l)).
Proof.
  revert prefix. induction l as [|y l IH]; intros prefix; simpl; [done|].
  rewrite list_lookup_middle by done.
  rewrite take_app_length. f_equal.
  rewrite IH, <- app_assoc. simpl.
  rewrite length_app. simpl. by rewrite Nat.add_1_r.
Qed.

Lemma unique_first_occurrences (l : list Address) : unique l = first_occurrences l.
Proof.
  unfold unique, first_occurrences.
  rewrite (Set_add_fold l [] []) by done. simpl.
  by rewrite keep_first_positions.
Qed.

Lemma keep_first_elem (prefix l : list Address) (x : Address) :
  x ∈ keep_first prefix l <-> x ∈ l /\ x ∉ prefix.
Proof.
  revert prefix. induction l as [|y l IH]; intros prefix; simpl.
  - rewrite elem_of_nil. tauto.
  - rewrite elem_of_app, IH, elem_of_cons, elem_of_app, list_elem_of_singleton.
    destruct (includes prefix y) eqn:Hy.
    + apply includes_spec in Hy. rewrite elem_of_nil. intuition congruence.
    + apply includes_false in Hy. rewrite list_elem_of_singleton.
      destruct (decide (x = y)); intuition congruence.
Qed.

Lemma keep_first_NoDup (prefix l : list Address) : NoDup (keep_first prefix l).
Proof.
  revert prefix. induction l as [|y l IH]; intros prefix; simpl; [constructor|].
  destruct (includes prefix y); simpl; [apply IH|].
  constructor; [|apply IH].
  rewrite keep_first_elem, elem_of_app, list_elem_of_singleton. tauto.
Qed.

Lemma first_occurrences_keep_first (l : list Address) :
  first_occurrences l = keep_first [] l.
Proof. by rewrite keep_first_positions. Qed.

Lemma bind_ret_then {A B} (m : M A) (f : A -> B) s :
  bind m (fun a => ret (f a)) s = then_ f (m s).
Proof. unfold bind, then_, ret. by destruct (m s) as [[| |] ?]. Qed.


(** * The claims *)

(** Membership in a list that computes. *)
Ltac in_list :=
  apply list_elem_of_In; vm_compute;
  repeat (first [left; reflexivity | right]).

(** C3, as amended.  Let the first [n] balance reads fail with a timeout and
    let attempts remain ([n + 1 <= retries]).  If the next read succeeds,
    the retry loop returns its value after exactly [n] pauses of [delayMs].
    If the next read fails with an error that is no timeout, the loop throws
    that error at once, with no pause after it: the pauses made are the [n]
    ones that followed the timeouts, none when the error comes at the first
    attempt.  If the next read is the last attempt allowed and times out as
    well, the loop throws its error. *)
Theorem retry_on_timeouts_only (env : Env) (c : Contract) (address : Address)
    (retries delayMs : Z) (s : State) (n : nat) :
  Z.of_nat n + 1 <= retries ->
  first_time_out env s c address delayMs n ->
  let earlier := failed_attempts c address delayMs 1 n in
  let run := fetchBalanceWithRetries env c address retries delayMs s in
  pauses earlier = repeat delayMs n
  /\ (forall v,
        attempt_outcome env s c address delayMs n = inr v ->
        run = (Return (Some v), extend s (earlier ++ [RpcBalanceOf c address]))
        /\ pauses (earlier ++ [RpcBalanceOf c address]) = repeat delayMs n)
  /\ (forall error,
        attempt_outcome env s c address delayMs n = inl error ->
        is_timeout error = false ->
        run = (Throw error, extend s (earlier ++ [RpcBalanceOf c address]))
        /\ pauses (earlier ++ [RpcBalanceOf c address]) = repeat delayMs n)
  /\ (forall error,
        attempt_outcome env s c address delayMs n = inl error ->
        is_timeout error = true ->
        Z.of_nat n + 1 = retries ->
        run = (Throw error,
               extend s (earlier ++ [RpcBalanceOf c address;
                                     ConsoleError (MsgAttemptTimeout retries address)]))).
Proof.
  intros Hn Hfirst earlier run.
  assert (Hpauses : pauses earlier = repeat delayMs n) by apply pauses_failed_attempts.
  assert (Hmore : forall l, pauses l = [] -> pauses (earlier ++ l) = repeat delayMs n).
  { intros l Hl. by rewrite pauses_app, Hpauses, Hl, app_nil_r. }
  set (fuel := (Z.to_nat retries - n - 1)%nat).
  assert (Hfuel : Z.to_nat retries = (n + S fuel)%nat) by lia.
  assert (Hrun : run =
    fetchBalance_from env (S fuel) c address retries delayMs
      (1 + Z.of_nat n) (extend s earlier)).
  { unfold run, fetchBalanceWithRetries. rewrite Hfuel.
    apply fetch_after_timeouts; [lia | exact Hfirst]. }
  split; [done|]. repeat split.
  - rewrite Hrun, (fetch_resolves _ _ _ _ _ _ _ _ v), extend_extend; [done | lia | done].
  - by apply Hmore.
  - rewrite Hrun, (fetch_rejects _ _ _ _ _ _ _ _ error), extend_extend; [done | lia | done..].
  - by apply Hmore.
  - intros error Hans Hto Hlast. rewrite Hrun.
    replace (1 + Z.of_nat n) with retries by lia.
    by rewrite (fetch_gives_up _ _ _ _ _ _ _ error), extend_extend.
Qed.

(** A run of the retry loop with one timeout before a balance of 1200
    tokens. *)
Lemma retry_on_timeouts_only_witness :
  Z.of_nat 1 + 1 <= 3
  /\ first_time_out Example.world (start Example.empty_disk)
       (LPTokenContract Example.poolB) Example.holder1 2000 1
  /\ fetchBalanceWithRetries Example.world (LPTokenContract Example.poolB)
       Example.holder1 3 2000 (start Example.empty_disk)
     = (Return (Some (Example.tokens 1200)),
        extend (start Example.empty_disk)
          [RpcBalanceOf (LPTokenContract Example.poolB) Example.holder1;
           ConsoleError (MsgAttemptTimeout 1 Example.holder1);
           Sleep 2000;
           RpcBalanceOf (LPTokenContract Example.poolB) Example.holder1]).
Proof.
  assert (H1 : Z.of_nat 1 + 1 <= 3) by lia.
  assert (H2 : first_time_out Example.world (start Example.empty_disk)
                 (LPTokenContract Example.poolB) Example.holder1 2000 1).
  { intros k Hk. assert (k = 0%nat) as -> by lia.
    exists Example.ETIMEDOUT. split; reflexivity. }
  split; [exact H1|]. split; [exact H2|].
  exact (proj1 (proj1 (proj2 (retry_on_timeouts_only Example.world
           (LPTokenContract Example.poolB) Example.holder1 3 2000
           (start Example.empty_disk) 1 H1 H2)) (Example.tokens 1200) eq_refl)).
Defined.

(** C3, as stated, fails: an error that is no timeout and comes at the
    second attempt, after one timeout, is thrown after one pause, not after
    none. *)
Lemma pause_before_late_refusal :
  exists s',
    fetchBalanceWithRetries Example.late_refusal_world (LPTokenContract Example.poolB)
      Example.holder1 3 2000 (start Example.empty_disk)
    = (Throw Example.SERVER_ERROR, s')
    /\ is_timeout Example.SERVER_ERROR = false
    /\ pauses (trace s') = [2000]
    /\ pauses (trace s') <> [].
Proof. eexists. split; [vm_compute; reflexivity|]. repeat split. discriminate. Qed.

(** C4.  For a block range with [fromBlock <= toBlock] and a batch size of
    one block or more, the paginated fetcher returns, and the ranges it
    queried tile the block range: they follow one another from [fromBlock]
    to [toBlock] with no gap and no overlap, each holds at most [batchSize]
    blocks, every block of the range lies in one of them, and the last one
    ends at [toBlock]. *)
Theorem pagination_tiles_the_range (env : Env) (c : Contract) (filter : Filter)
    (fromBlock toBlock batchSize : Z) (s : State) :
  fromBlock <= toBlock -> 0 < batchSize ->
  exists events new,
    queryFilterPaginated env c filter fromBlock toBlock batchSize s
    = (Return events, extend s new)
    /\ tiles fromBlock toBlock (queried new)
    /\ Forall (fun r => range_size r <= batchSize) (queried new)
    /\ (forall b,
          fromBlock <= b <= toBlock <-> exists r, r ∈ queried new /\ r.1 <= b <= r.2)
    /\ (forall i j r1 r2,
          queried new !! i = Some r1 -> queried new !! j = Some r2 -> (i < j)%nat ->
          r1.2 < r2.1)
    /\ (forall i r1 r2,
          queried new !! i = Some r1 -> queried new !! S i = Some r2 -> r2.1 = r1.2 + 1)
    /\ (exists r, last (queried new) = Some r /\ r.2 = toBlock).
Proof.
  intros Hrange Hbs.
  destruct (pages_run env c filter toBlock batchSize
              (Z.to_nat (toBlock - fromBlock + 1)) Hbs fromBlock [] s)
    as (ranges & outcomes & new & Hrun & Hans & Htiles & _ & Hsize); [lia|].
  apply answers_queried in Hans as [Hq _]. specialize (Htiles Hrange).
  exists (flat_map batch_events outcomes), new. rewrite Hq.
  split; [exact Hrun|]. split; [done|]. split; [done|].
  split; [by apply tiles_covers|]. split; [by eapply tiles_apart|].
  split; [by eapply tiles_consecutive | by eapply tiles_final].
Qed.

(** The scan of the scenario: 7001 blocks in batches of 5000. *)
Lemma pagination_tiles_the_range_witness :
  18672539 <= 18679539 /\ 0 < 5000
  /\ exists events new,
       queryFilterPaginated Example.world FactoryContract PairCreatedFilter
         18672539 18679539 5000 (start Example.empty_disk)
       = (Return events, extend (start Example.empty_disk) new)
       /\ tiles 18672539 18679539 (queried new).
Proof.
  assert (H1 : 18672539 <= 18679539) by lia.
  assert (H2 : 0 < 5000) by lia.
  split; [exact H1|]. split; [exact H2|].
  destruct (pagination_tiles_the_range Example.world FactoryContract PairCreatedFilter
              18672539 18679539 5000 (start Example.empty_disk) H1 H2)
    as (events & new & Hrun & Htiles & _).
  exists events, new. split; [exact Hrun | exact Htiles].
Defined.

(** C6.  With a batch size of one block or more, the paginated fetcher
    queries every batch exactly once, in order, whatever the outcomes of the
    queries, and returns the events of the batches whose query succeeded, in
    the order of the batches and, within a batch, in the order the endpoint
    gave them; a batch whose query failed adds no event, is not queried
    again and does not end the fetch. *)
Theorem failed_batches_are_skipped (env : Env) (c : Contract) (filter : Filter)
    (fromBlock toBlock batchSize : Z) (s : State) :
  0 < batchSize ->
  exists ranges outcomes new,
    queryFilterPaginated env c filter fromBlock toBlock batchSize s
    = (Return (flat_map batch_events outcomes), extend s new)
    /\ answers env c filter (trace s) ranges outcomes new
    /\ queried new = ranges
    /\ length outcomes = length ranges
    /\ (fromBlock <= toBlock -> tiles fromBlock toBlock ranges)
    /\ (toBlock < fromBlock -> ranges = []).
Proof.
  intros Hbs.
  destruct (pages_run env c filter toBlock batchSize
              (Z.to_nat (toBlock - fromBlock + 1)) Hbs fromBlock [] s)
    as (ranges & outcomes & new & Hrun & Hans & Htiles & Hnone & _); [lia|].
  exists ranges, outcomes, new.
  destruct (answers_queried _ _ _ _ _ _ _ Hans) as [Hq Hlen]. done.
Qed.

(** The scan of the scenario, where the first batch gives three logs and the
    second batch fails. *)
Lemma failed_batches_are_skipped_witness :
  0 < 5000
  /\ exists ranges outcomes new,
       queryFilterPaginated Example.world FactoryContract PairCreatedFilter
         18672539 18679539 5000 (start Example.empty_disk)
       = (Return (flat_map batch_events outcomes), extend (start Example.empty_disk) new)
       /\ answers Example.world FactoryContract PairCreatedFilter
            (trace (start Example.empty_disk)) ranges outcomes new
       /\ queried new = ranges
       /\ length outcomes = length ranges
       /\ (18672539 <= 18679539 -> tiles 18672539 18679539 ranges)
       /\ (18679539 < 18672539 -> ranges = []).
Proof.
  assert (H : 0 < 5000) by lia. split; [exact H|].
  exact (failed_batches_are_skipped Example.world FactoryContract PairCreatedFilter
           18672539 18679539 5000 (start Example.empty_disk) H).
Defined.

(** What the scan of the scenario returns: the three logs of the first
    batch, after both batches were queried. *)
Example scan_of_the_scenario :
  let run :=
    queryFilterPaginated Example.world FactoryContract PairCreatedFilter
      18672539 18679539 5000 (start Example.empty_disk) in
  run.1 = Return [mkPairCreated Example.token Example.token Example.poolA;
                  mkPairCreated Example.token Example.token Example.poolB;
                  mkPairCreated Example.token Example.token Example.poolA]
  /\ queried (trace run.2) = [(18672539, 18677538); (18677539, 18679539)].
Proof. split; vm_compute; reflexivity. Qed.

(** C5.  Holder qualification returns, and its records are those of the
    holders whose balance read gave a balance worth 5000 or more, in the
    order of the input list: a holder is kept exactly when
    [5000 <= balance * price] holds for its (successfully read) balance, so
    a holding worth exactly 5000 is kept and one worth less than 5000 is
    not. *)
Theorem holders_at_the_threshold_qualify (env : Env) (lp : Address)
    (holders : list Address) (price : float) (decimals : Z) (s : State) :
  exists reads s',
    balance_reads env lp s holders reads s'
    /\ length reads = length holders
    /\ checkLPHolderValue env lp holders price decimals s
       = (Return (qualified env lp price decimals holders reads), s')
    /\ sublist (map holderAddress (qualified env lp price decimals holders reads)) holders
    /\ (forall addr balanceBN,
          let balance := units_to_number env balanceBN decimals in
          let holdingValue := (balance * price)%float in
          qualifying env lp price decimals addr (Return (Some balanceBN))
          = if (5000 <=? holdingValue)%float
            then [mkRecord lp addr balance holdingValue] else [])
    /\ (forall addr balanceBN,
          (units_to_number env balanceBN decimals * price)%float = 5000%float ->
          qualifying env lp price decimals addr (Return (Some balanceBN))
          = [mkRecord lp addr (units_to_number env balanceBN decimals) 5000%float])
    /\ (forall addr balanceBN,
          (units_to_number env balanceBN decimals * price <? 5000)%float = true ->
          qualifying env lp price decimals addr (Return (Some balanceBN)) = []).
Proof.
  destruct (holders_run env lp price decimals holders [] s) as (reads & s' & Hreads & Hrun).
  exists reads, s'. split; [done|]. split; [by eapply balance_reads_length|].
  split; [exact Hrun|]. split; [apply qualified_sublist|]. split; [done|]. split.
  - intros addr bn Hv. unfold qualifying. by rewrite Hv.
  - intros addr bn Hv. unfold qualifying. by rewrite (below_not_reached _ _ Hv).
Qed.

(** At five dollars a token, 1000 tokens are worth exactly 5000 dollars and
    qualify; 999 tokens are worth 4995 dollars and do not. *)
Lemma holders_at_the_threshold_qualify_witness :
  (units_to_number Example.world (Example.tokens 1000) 18 * 5)%float = 5000%float
  /\ qualifying Example.world Example.poolB 5 18 Example.holder1
       (Return (Some (Example.tokens 1000)))
     = [mkRecord Example.poolB Example.holder1 1000%float 5000%float]
  /\ (units_to_number Example.world (Example.tokens 999) 18 * 5 <? 5000)%float = true
  /\ qualifying Example.world Example.poolB 5 18 Example.holder2
       (Return (Some (Example.tokens 999))) = [].
Proof.
  assert (H1 : (units_to_number Example.world (Example.tokens 1000) 18 * 5)%float
               = 5000%float) by reflexivity.
  assert (H2 : (units_to_number Example.world (Example.tokens 999) 18 * 5 <? 5000)%float
               = true) by reflexivity.
  destruct (holders_at_the_threshold_qualify Example.world Example.poolB [] 5 18
              (start Example.empty_disk))
    as (_ & _ & _ & _ & _ & _ & _ & Hat & Hbelow).
  split; [exact H1|]. split; [exact (Hat Example.holder1 (Example.tokens 1000) H1)|].
  split; [exact H2 | exact (Hbelow Example.holder2 (Example.tokens 999) H2)].
Defined.

(** The holders of [0xB] in the scenario: [0xh1] with 6000 dollars is kept,
    [0xh2] with 3000 dollars is not. *)
Example holders_of_the_scenario :
  (checkLPHolderValue Example.world Example.poolB [Example.holder1; Example.holder2]
     5%float 18 (start Example.empty_disk)).1
  = Return [mkRecord Example.poolB Example.holder1 1200%float 6000%float].
Proof. vm_compute. reflexivity. Qed.

(** C8.  Loading the checkpoint never throws.  It returns the empty array,
    leaving no trace, when the file is missing; it returns the empty array
    after printing the warning when the file is there and its text cannot be
    parsed, or cannot be read.  With the empty array, no discovered pool is
    filtered out: the run goes on as if there were no earlier state. *)
Theorem checkpoint_load_is_never_fatal (env : Env) (filename : string) (s : State) :
  (files s !! filename = None -> loadCheckpoint env filename s = (Return [], s))
  /\ (forall data err,
        files s !! filename = Some data ->
        fs_fault env (trace s) (FsRead filename) = None ->
        JSON_parse env data = inl err ->
        loadCheckpoint env filename s
        = (Return [], extend s [FsRead filename; ConsoleError MsgCheckpointParseError]))
  /\ (forall data err,
        files s !! filename = Some data ->
        fs_fault env (trace s) (FsRead filename) = Some err ->
        loadCheckpoint env filename s
        = (Return [], extend s [FsRead filename; ConsoleError MsgCheckpointParseError]))
  /\ (exists cp s', loadCheckpoint env filename s = (Return cp, s'))
  /\ (forall lpPairAddresses, unprocessed [] lpPairAddresses = lpPairAddresses).
Proof.
  assert (Hrun : forall data,
    files s !! filename = Some data ->
    loadCheckpoint env filename s =
    match fs_fault env (trace s) (FsRead filename) with
    | Some _ => (Return [], extend s [FsRead filename; ConsoleError MsgCheckpointParseError])
    | None =>
        match JSON_parse env data with
        | inr parsed => (Return parsed, extend s [FsRead filename])
        | inl _ =>
            (Return [], extend s [FsRead filename; ConsoleError MsgCheckpointParseError])
        end
    end).
  { intros data Hfile. unfold loadCheckpoint, bind at 1, fs_existsSync. rewrite Hfile.
    unfold try_catch, bind at 1, fs_readFileSync, fs_call.
    destruct (fs_fault env (trace s) (FsRead filename)); simpl.
    - unfold extend, record_effect, bind, console_error, emit, ret, record_effect. simpl.
      by rewrite <- ?app_assoc.
    - rewrite Hfile. destruct (JSON_parse env data); simpl; [|done].
      unfold extend, record_effect, bind, console_error, emit, ret, record_effect. simpl.
      by rewrite <- ?app_assoc. }
  repeat split.
  - intros Hfile. unfold loadCheckpoint, bind, fs_existsSync. by rewrite Hfile.
  - intros data err Hfile Hfault Hparse. by rewrite (Hrun data Hfile), Hfault, Hparse.
  - intros data err Hfile Hfault. by rewrite (Hrun data Hfile), Hfault.
  - destruct (files s !! filename) as [data|] eqn:Hfile.
    + rewrite (Hrun data eq_refl).
      destruct (fs_fault env (trace s) (FsRead filename)); [eauto|].
      destruct (JSON_parse env data); eauto.
    + exists [], s. unfold loadCheckpoint, bind, fs_existsSync. by rewrite Hfile.
  - intros l. unfold unprocessed. induction l as [|x l IH]; [done|].
    exact (f_equal (cons x) IH).
Qed.

(** A missing checkpoint file, and one whose text is cut short. *)
Lemma checkpoint_load_is_never_fatal_witness :
  (files (start Example.empty_disk) !! CHECKPOINT_FILENAME = None
   /\ loadCheckpoint Example.world CHECKPOINT_FILENAME (start Example.empty_disk)
      = (Return [], start Example.empty_disk))
  /\ (files (start Example.disk_corrupt) !! CHECKPOINT_FILENAME = Some "[ 0xA"%string
      /\ fs_fault Example.world (trace (start Example.disk_corrupt))
           (FsRead CHECKPOINT_FILENAME) = None
      /\ JSON_parse Example.world "[ 0xA" = inl Example.SyntaxError
      /\ loadCheckpoint Example.world CHECKPOINT_FILENAME (start Example.disk_corrupt)
         = (Return [],
            extend (start Example.disk_corrupt)
              [FsRead CHECKPOINT_FILENAME; ConsoleError MsgCheckpointParseError])).
Proof.
  assert (H1 : files (start Example.empty_disk) !! CHECKPOINT_FILENAME = None)
    by reflexivity.
  assert (H2 : files (start Example.disk_corrupt) !! CHECKPOINT_FILENAME
               = Some "[ 0xA"%string) by reflexivity.
  assert (H3 : fs_fault Example.world (trace (start Example.disk_corrupt))
                 (FsRead CHECKPOINT_FILENAME) = None) by reflexivity.
  assert (H4 : JSON_parse Example.world "[ 0xA" = inl Example.SyntaxError) by reflexivity.
  split.
  - split; [exact H1|].
    exact (proj1 (checkpoint_load_is_never_fatal Example.world CHECKPOINT_FILENAME
                    (start Example.empty_disk)) H1).
  - split; [exact H2|]. split; [exact H3|]. split; [exact H4|].
    exact (proj1 (proj2 (checkpoint_load_is_never_fatal Example.world CHECKPOINT_FILENAME
                           (start Example.disk_corrupt)))
             _ _ H2 H3 H4).
Defined.

(** C9.  What [[...new Set(l)]] keeps of a list of addresses is the list of
    its first occurrences, in order: no address twice, every address of [l]
    once, each at the place of its first occurrence among the others.  Pair
    discovery returns this for the pool addresses of the logs that the
    paginated fetcher returned, and holder discovery for the recipients. *)
Theorem discovery_keeps_first_occurrences (env : Env) :
  (forall l : list Address,
     unique l = first_occurrences l
     /\ NoDup (unique l)
     /\ forall x, x ∈ unique l <-> x ∈ l)
  /\ (forall fromBlock toBlock batchSize s,
        getLPPairAddresses env fromBlock toBlock batchSize s
        = then_ (fun logs => first_occurrences (map args_pair logs))
            (queryFilterPaginated env FactoryContract PairCreatedFilter
               fromBlock toBlock batchSize
               (extend s [ConsoleLog (MsgQueryingPairCreated fromBlock toBlock batchSize)])))
  /\ (forall lpAddress fromBlock toBlock batchSize s,
        getLPHolders env lpAddress fromBlock toBlock batchSize s
        = then_ (fun logs => first_occurrences (map args_to logs))
            (queryFilterPaginated env (LPTokenContract lpAddress)
               (TransferFilter (Some ZeroAddress) None) fromBlock toBlock batchSize s)).
Proof.
  split; [|split].
  - intros l. split; [apply unique_first_occurrences|].
    rewrite unique_first_occurrences, first_occurrences_keep_first.
    split; [apply keep_first_NoDup|]. intros x. rewrite keep_first_elem.
    split; [tauto|]. intros H. split; [done | apply not_elem_of_nil].
  - intros fromBlock toBlock batchSize s. unfold getLPPairAddresses.
    rewrite (bind_return _ _ _ _ _ (log_run _ s)).
    rewrite <- bind_ret_then. unfold bind.
    destruct (queryFilterPaginated _ _ _ _ _ _ _) as [[logs| |] s']; try done.
    unfold ret. by rewrite unique_first_occurrences.
  - intros lp fromBlock toBlock batchSize s. unfold getLPHolders.
    rewrite <- bind_ret_then. unfold bind.
    destruct (queryFilterPaginated _ _ _ _ _ _ _) as [[logs| |] s']; try done.
    unfold ret. by rewrite unique_first_occurrences.
Qed.

(** The recipients of the scenario, [0xh1] twice with [0xh2] in between. *)
Example first_occurrences_of_the_scenario :
  unique [Example.holder1; Example.holder2; Example.holder1]
  = [Example.holder1; Example.holder2].
Proof. reflexivity. Qed.

Lemma string_app_length (a b : string) :
  String.length (a ++ b) = (String.length a + String.length b)%nat.
Proof. induction a as [|x a IH]; [done|]. simpl. by rewrite <- IH. Qed.

Lemma string_app_grows (a b : string) : b <> ""%string -> (a ++ b)%string <> a.
Proof.
  intros Hb Heq. apply (f_equal String.length) in Heq. rewrite string_app_length in Heq.
  destruct b; [done|]. simpl in Heq. lia.
Qed.

(** The effects of [main] are its own, the message that shows the loaded
    checkpoint, and turns of the loop. *)
Lemma main_effects (env : Env) (disk : gmap string string) :
  Forall
    (fun e =>
       own_effect e \/ (exists cp, e = ConsoleLog (MsgCheckpointLoaded cp))
       \/ exists lp, pair_effect env lp e)
    (trace (main env (start disk)).2).
Proof.
  destruct (main_run env disk)
    as [[err Hrun]|(cp & before & after & s' & Hrun & Ht & Hb & Ha & _)]; rewrite Hrun.
  - simpl. constructor; [by left | constructor].
  - simpl. rewrite Ht. simpl. rewrite Forall_app, Forall_cons. repeat split.
    + eapply Forall_impl; [exact Hb|]. simpl. tauto.
    + right. left. by exists cp.
    + eapply Forall_impl; [exact Ha|]. intros e [?|(lp & _ & ?)]; [tauto|].
      right. right. by exists lp.
Qed.

(** C10.  Called with no record, the record sink, when it returns, has
    changed the file: it has appended one line feed, a blank row, after the
    rows that were there, or after the header that it first wrote because
    the file was missing.  [main] never does this to the CSV file: whatever
    it appends are the rows of at least one record. *)
Theorem empty_append_adds_a_blank_row (env : Env) :
  csv_rows env [] = LF
  /\ (forall filename s,
        (appendRecordsToCSV env [] filename s).1 = Return tt ->
        files (appendRecordsToCSV env [] filename s).2 !! filename
        = Some (match files s !! filename with
                | Some old => old
                | None => CSV_HEADER ++ LF
                end ++ LF)%string
        /\ files (appendRecordsToCSV env [] filename s).2 <> files s)
  /\ (forall disk,
        Forall
          (fun e =>
             forall f data, e = FsAppend f data ->
               exists records, records <> [] /\ data = csv_rows env records)
          (trace (main env (start disk)).2)).
Proof.
  split; [done|]. split.
  - intros filename s Hret.
    assert (Hfile :
      files (appendRecordsToCSV env [] filename s).2 !! filename
      = Some (match files s !! filename with
              | Some old => old
              | None => CSV_HEADER ++ LF
              end ++ LF)%string).
    { destruct (appendRecordsToCSV env [] filename s) as [r s'] eqn:Hrun.
      simpl in Hret |- *. subst r. rewrite appendRecordsToCSV_unfold in Hrun.
      change (csv_rows env []) with LF in Hrun.
      destruct (files s !! filename) as [old|] eqn:Hold.
      - unfold bind at 1 in Hrun. rewrite fs_appendFileSync_run in Hrun.
        destruct (fs_fault env _ _); [done|]. rewrite log_run in Hrun.
        injection Hrun as <-. simpl. by rewrite Hold, lookup_insert_eq.
      - unfold bind at 1 in Hrun. rewrite fs_writeFileSync_run in Hrun.
        destruct (fs_fault env _ _); [done|].
        unfold bind at 1 in Hrun. rewrite fs_appendFileSync_run in Hrun.
        destruct (fs_fault env _ _); [done|]. rewrite log_run in Hrun.
        injection Hrun as <-. simpl. by rewrite lookup_insert_eq, lookup_insert_eq. }
    split; [exact Hfile|].
    intros Heq. rewrite Heq in Hfile. destruct (files s !! filename) as [old|]; [|done].
    injection Hfile as Hfile. symmetry in Hfile. by apply string_app_grows in Hfile.
  - intros disk. eapply Forall_impl; [apply main_effects|].
    intros e He f data ->. destruct He as [Hown|[[cp Heq]|[lp Hpair]]]; try done.
    destruct Hpair as (_ & records & Hne & _ & ->). eauto.
Qed.

(** The sink called with no record on a disk without the CSV file: the file
    then holds the header and a blank row. *)
Lemma empty_append_adds_a_blank_row_witness :
  (appendRecordsToCSV Example.world [] CSV_FILENAME (start Example.empty_disk)).1 = Return tt
  /\ files (appendRecordsToCSV Example.world [] CSV_FILENAME (start Example.empty_disk)).2
       !! CSV_FILENAME
     = Some ((CSV_HEADER ++ LF) ++ LF)%string
  /\ files (appendRecordsToCSV Example.world [] CSV_FILENAME (start Example.empty_disk)).2
     <> files (start Example.empty_disk).
Proof.
  assert (H : (appendRecordsToCSV Example.world [] CSV_FILENAME
                 (start Example.empty_disk)).1 = Return tt) by reflexivity.
  split; [exact H|].
  exact (proj1 (proj2 (empty_append_adds_a_blank_row Example.world))
           CSV_FILENAME (start Example.empty_disk) H).
Defined.

(** C2.  Let a run of [main] show [cp] as the checkpoint it loaded, and let
    [P] be in [cp].  Then the run makes no remote read on the LP token of
    [P] (no supply read, no log query, no balance read), whatever it appends
    to a file are rows of other pools, and what the CSV file held before the
    run is still at its start afterwards; this does not depend on pair
    discovery finding [P] again. *)
Theorem checkpointed_pool_is_left_alone (env : Env) (disk : gmap string string)
    (cp : list Address) (P : Address) :
  ConsoleLog (MsgCheckpointLoaded cp) ∈ trace (main env (start disk)).2 ->
  P ∈ cp ->
  Forall (leaves_alone env P) (trace (main env (start disk)).2)
  /\ csv_kept (start disk) (main env (start disk)).2.
Proof.
  intros Hshown HP.
  destruct (main_run env disk)
    as [[err Hrun]|(cp' & before & after & s' & Hrun & Ht & Hb & Ha & Hcsv)];
    rewrite Hrun in *; simpl in *.
  { apply list_elem_of_singleton in Hshown. discriminate. }
  split; [|done]. rewrite Ht in *. simpl in *.
  assert (cp' = cp) as ->.
  { apply elem_of_app in Hshown as [Hin|Hin].
    - rewrite Forall_forall in Hb. apply Hb in Hin. done.
    - apply elem_of_cons in Hin as [Heq|Hin]; [congruence|].
      rewrite Forall_forall in Ha. apply Ha in Hin.
      destruct Hin as [?|(lp & _ & ?)]; done. }
  rewrite Forall_app, Forall_cons. split; [|split; [exact I|]].
  - eapply Forall_impl; [exact Hb|]. apply own_effect_leaves_alone.
  - eapply Forall_impl; [exact Ha|]. intros e [Hown|(lp & Hlp & Hpair)].
    + by apply own_effect_leaves_alone.
    + eapply pair_effect_leaves_alone; [|exact Hpair]. by intros ->.
Qed.

(** A second run on the disk that a run which dealt with [0xB] left behind;
    pair discovery finds [0xB] again. *)
Lemma checkpointed_pool_is_left_alone_witness :
  ConsoleLog (MsgCheckpointLoaded [Example.poolB])
    ∈ trace (main Example.world (start Example.disk_after_B)).2
  /\ Example.poolB ∈ [Example.poolB]
  /\ ConsoleLog (MsgFoundPairs [Example.poolA; Example.poolB])
       ∈ trace (main Example.world (start Example.disk_after_B)).2
  /\ Forall (leaves_alone Example.world Example.poolB)
       (trace (main Example.world (start Example.disk_after_B)).2)
  /\ csv_kept (start Example.disk_after_B) (main Example.world (start Example.disk_after_B)).2.
Proof.
  assert (H1 : ConsoleLog (MsgCheckpointLoaded [Example.poolB])
                 ∈ trace (main Example.world (start Example.disk_after_B)).2) by in_list.
  assert (H2 : Example.poolB ∈ [Example.poolB]) by apply list_elem_of_here.
  split; [exact H1|]. split; [exact H2|]. split; [in_list|].
  exact (checkpointed_pool_is_left_alone Example.world Example.disk_after_B
           [Example.poolB] Example.poolB H1 H2).
Defined.

(** One turn of the loop of [main] returns; its first effect is the message
    that names the pool. *)
Lemma processPairGuarded_run (env : Env) (fromBlock toBlock batchSize : Z)
    (lp : Address) (s : State) :
  0 < batchSize ->
  exists s1 l,
    processPairGuarded env fromBlock toBlock batchSize lp s = (Return tt, s1)
    /\ trace s1 = trace s ++ ConsoleLog (MsgProcessingPair lp) :: l.
Proof.
  intros Hbs. unfold processPairGuarded. rewrite (bind_return _ _ _ _ _ (log_run _ s)).
  set (s_in := record_effect _ s).
  assert (Hsat : sat (pair_effect env lp)
            (try_catch (processPair env fromBlock toBlock batchSize lp)
               (fun err => console_error (MsgErrorProcessing lp err)))
            (returns anything)).
  { eapply sat_catch; [by apply sat_processPair| |done].
    intros err. by apply sat_error. }
  destruct (Hsat s_in) as [(l & Ht & _) Hpost].
  destruct (try_catch _ _ s_in) as [[[]| |] s1]; try done.
  exists s1, l. split; [done|]. simpl in Ht. by rewrite Ht, <- app_assoc.
Qed.

(** The loop of [main] returns, having started a turn for each pool. *)
Lemma processPairs_visits (env : Env) (fromBlock toBlock batchSize : Z) :
  0 < batchSize ->
  forall pools s,
    exists s2 later,
      processPairs env fromBlock toBlock batchSize pools s = (Return tt, s2)
      /\ trace s2 = trace s ++ later
      /\ forall q, q ∈ pools -> ConsoleLog (MsgProcessingPair q) ∈ later.
Proof.
  intros Hbs. induction pools as [|lp rest IH]; intros s.
  - exists s, []. rewrite app_nil_r. split; [done|]. split; [done|].
    intros q Hq. by apply elem_of_nil in Hq.
  - destruct (processPairGuarded_run env fromBlock toBlock batchSize lp s Hbs)
      as (s1 & l & Hrun & Ht).
    destruct (IH s1) as (s2 & later & Hrest & Ht2 & Hvisits).
    exists s2, (ConsoleLog (MsgProcessingPair lp) :: l ++ later).
    simpl. rewrite (bind_return _ _ _ _ _ Hrun). split; [done|]. split.
    + rewrite Ht2, Ht, <- app_assoc. done.
    + intros q [->|Hq]%elem_of_cons; [apply list_elem_of_here|].
      apply list_elem_of_further, elem_of_app. right. by apply Hvisits.
Qed.

(** C7, as amended.  Let the processing of a pool throw an error that none
    of its steps absorbed, before any write of the checkpoint file was
    attempted for this pool (the error comes from holder discovery, holder
    qualification or the record sink).  Then the turn of the loop catches
    the error and prints it; the checkpoint, in memory and on disk, is as it
    was before the turn, so the pool is not in it unless it was already; and
    the loop goes on and starts a turn for each remaining pool. *)
Theorem unhandled_error_keeps_pool_out_of_checkpoint (env : Env)
    (fromBlock toBlock batchSize : Z) (lp : Address) (rest : list Address) (s : State)
    (err : JSError) (s0 : State) (new : list Effect) :
  0 < batchSize ->
  processPair env fromBlock toBlock batchSize lp
    (extend s [ConsoleLog (MsgProcessingPair lp)]) = (Throw err, s0) ->
  trace s0 = trace s ++ ConsoleLog (MsgProcessingPair lp) :: new ->
  Forall not_checkpoint_write new ->
  let s1 := extend s0 [ConsoleError (MsgErrorProcessing lp err)] in
  processPairGuarded env fromBlock toBlock batchSize lp s = (Return tt, s1)
  /\ checkpoint s1 = checkpoint s
  /\ files s1 !! CHECKPOINT_FILENAME = files s !! CHECKPOINT_FILENAME
  /\ processPairs env fromBlock toBlock batchSize (lp :: rest) s
     = processPairs env fromBlock toBlock batchSize rest s1
  /\ exists s2 later,
       processPairs env fromBlock toBlock batchSize rest s1 = (Return tt, s2)
       /\ trace s2 = trace s1 ++ later
       /\ forall q, q ∈ rest -> ConsoleLog (MsgProcessingPair q) ∈ later.
Proof.
  intros Hbs Hthrow Htrace Hquiet s1.
  assert (Hrun : processPairGuarded env fromBlock toBlock batchSize lp s = (Return tt, s1)).
  { unfold processPairGuarded. rewrite (bind_return _ _ _ _ _ (log_run _ s)).
    by rewrite (try_throw _ _ _ _ _ Hthrow). }
  destruct (sat_processPair env lp fromBlock toBlock batchSize Hbs
              (extend s [ConsoleLog (MsgProcessingPair lp)])) as [(l & Ht & _ & _ & Hkept) _].
  rewrite Hthrow in Ht, Hkept. simpl in Ht, Hkept.
  assert (l = new) as ->.
  { rewrite Htrace, <- app_assoc in Ht. simpl in Ht.
    apply app_inv_head in Ht. by injection Ht. }
  destruct (Hkept Hquiet) as [Hcp Hfile].
  split; [exact Hrun|]. split; [exact Hcp|]. split; [exact Hfile|]. split.
  - simpl. by rewrite (bind_return _ _ _ _ _ Hrun).
  - by apply processPairs_visits.
Qed.

(** The disk is full: the row of [0xh1] cannot be appended, the turn for
    [0xB] ends in an error, [0xB] is not added to the checkpoint, and the
    loop goes on with [0xA]. *)
Lemma unhandled_error_keeps_pool_out_of_checkpoint_witness :
  let s := start Example.empty_disk in
  let s0 :=
    (processPair Example.full_disk_world 18672539 18679539 5000 Example.poolB
       (extend s [ConsoleLog (MsgProcessingPair Example.poolB)])).2 in
  let new := drop 1 (trace s0) in
  let s1 := extend s0 [ConsoleError (MsgErrorProcessing Example.poolB Example.ENOSPC)] in
  0 < 5000
  /\ processPair Example.full_disk_world 18672539 18679539 5000 Example.poolB
       (extend s [ConsoleLog (MsgProcessingPair Example.poolB)]) = (Throw Example.ENOSPC, s0)
  /\ trace s0 = trace s ++ ConsoleLog (MsgProcessingPair Example.poolB) :: new
  /\ Forall not_checkpoint_write new
  /\ processPairGuarded Example.full_disk_world 18672539 18679539 5000 Example.poolB s
     = (Return tt, s1)
  /\ checkpoint s1 = checkpoint s
  /\ files s1 !! CHECKPOINT_FILENAME = files s !! CHECKPOINT_FILENAME.
Proof.
  intros s s0 new s1.
  assert (H1 : 0 < 5000) by lia.
  assert (H2 : processPair Example.full_disk_world 18672539 18679539 5000 Example.poolB
                 (extend s [ConsoleLog (MsgProcessingPair Example.poolB)])
               = (Throw Example.ENOSPC, s0)) by (vm_compute; reflexivity).
  assert (H3 : trace s0 = trace s ++ ConsoleLog (MsgProcessingPair Example.poolB) :: new)
    by (vm_compute; reflexivity).
  assert (H4 : Forall not_checkpoint_write new).
  { vm_compute. repeat constructor; discriminate. }
  split; [exact H1|]. split; [exact H2|]. split; [exact H3|]. split; [exact H4|].
  destruct (unhandled_error_keeps_pool_out_of_checkpoint Example.full_disk_world
              18672539 18679539 5000 Example.poolB [Example.poolA] s Example.ENOSPC s0 new
              H1 H2 H3 H4) as (Hrun & Hcp & Hfile & _).
  split; [exact Hrun|]. split; [exact Hcp | exact Hfile].
Defined.

(** C7, as stated, fails: the first write of the checkpoint file fails, so
    the turn for [0xA] ends in an error that is caught and printed; [0xA]
    stays in the array all the same, and the write that follows the turn for
    [0xB] puts it into the checkpoint file, where the next run will find
    it. *)
Lemma failed_save_still_checkpoints_the_pool :
  exists s',
    main Example.flaky_disk_world (start Example.empty_disk) = (Return tt, s')
    /\ ConsoleError (MsgErrorProcessing Example.poolA Example.EACCES) ∈ trace s'
    /\ checkpoint s' = [Example.poolA; Example.poolB]
    /\ files s' !! CHECKPOINT_FILENAME
       = Some (JSON_stringify Example.flaky_disk_world [Example.poolA; Example.poolB])
    /\ JSON_parse Example.flaky_disk_world
         (JSON_stringify Example.flaky_disk_world [Example.poolA; Example.poolB])
       = inr [Example.poolA; Example.poolB]
    /\ Example.poolA ∈ [Example.poolA; Example.poolB].
Proof.
  eexists. split; [vm_compute; reflexivity|].
  split; [in_list|]. split; [reflexivity|]. split; [vm_compute; reflexivity|].
  split; [vm_compute; reflexivity | apply list_elem_of_here].
Qed.

(** C1: the code runs the gate the other way round.  In the scenario of the
    specification the pool [0xA], worth 25 000 dollars, is the one that is
    checkpointed without holder discovery, and the pool [0xB], worth
    10 000 dollars, is the one whose holders are looked up. *)
Theorem pool_gate_is_inverted :
  exists s',
    main Example.world (start Example.empty_disk) = (Return tt, s')
    /\ ConsoleLog (MsgPoolValue Example.poolA 25000%float) ∈ trace s'
    /\ ConsoleLog (MsgSkipping Example.poolA) ∈ trace s'
    /\ holder_queries Example.poolA (trace s') = []
    /\ ConsoleLog (MsgPoolValue Example.poolB 10000%float) ∈ trace s'
    /\ holder_queries Example.poolB (trace s')
       = [(18672539, 18677538); (18677539, 18679539)]
    /\ checkpoint s' = [Example.poolA; Example.poolB]
    /\ files s' !! CSV_FILENAME
       = Some (CSV_HEADER ++ LF ++ "0xB,0xh1,1200,6000" ++ LF)%string.
Proof.
  eexists. split; [vm_compute; reflexivity|].
  split; [in_list|]. split; [in_list|]. split; [reflexivity|].
  split; [in_list|]. split; [reflexivity|]. split; [reflexivity|].
  vm_compute. reflexivity.
Qed.

(** * Further properties of the code *)

(** ** The retry loop is bounded *)

Lemma reads_made_app l1 l2 : reads_made (l1 ++ l2) = reads_made l1 ++ reads_made l2.
Proof. unfold reads_made. by rewrite flat_map_app. Qed.

Lemma fetch_bounded (env : Env) (c : Contract) (address : Address) (retries delayMs : Z)
    (fuel : nat) :
  forall attempt s,
    (Z.to_nat (retries - attempt + 1) <= fuel)%nat ->
    exists new,
      (fetchBalance_from env fuel c address retries delayMs attempt s).2 = extend s new
      /\ Forall (balance_effect c address delayMs) new
      /\ (length (reads_made new) <= Z.to_nat (retries - attempt + 1))%nat
      /\ (length (pauses new) <= Z.to_nat (retries - attempt))%nat
      /\ (fetchBalance_from env fuel c address retries delayMs attempt s).1 <> Diverge
      /\ (attempt <= retries ->
          (fetchBalance_from env fuel c address retries delayMs attempt s).1 <> Return None)
      /\ (attempt <= retries -> (1 <= length (reads_made new))%nat).
Proof.
  induction fuel as [|fuel IH]; intros attempt s Hfuel.
  - exists []. assert (Hgt : (attempt <=? retries) = false) by (apply Z.leb_gt; lia).
    simpl. rewrite Hgt, extend_nil. simpl.
    repeat split; [constructor | lia | lia | done | lia | lia].
  - destruct (Z_le_gt_dec attempt retries) as [Hle|Hgt].
    2:{ exists []. assert (Hf : (attempt <=? retries) = false) by (apply Z.leb_gt; lia).
        simpl. rewrite Hf, extend_nil. simpl.
        repeat split; [constructor | lia | lia | done | lia | lia]. }
    destruct (rpc_balanceOf env (trace s) c address) as [error|v] eqn:Hans.
    2:{ exists [RpcBalanceOf c address].
        rewrite (fetch_resolves _ _ _ _ _ _ _ _ v Hle Hans). simpl.
        repeat split; try done; [by repeat constructor | lia | lia]. }
    destruct (is_timeout error) eqn:Hto.
    2:{ exists [RpcBalanceOf c address].
        rewrite (fetch_rejects _ _ _ _ _ _ _ _ error Hle Hans Hto). simpl.
        repeat split; try done; [by repeat constructor | lia | lia]. }
    destruct (Z_lt_ge_dec attempt retries) as [Hlt|Hge].
    + rewrite (fetch_pauses _ _ _ _ _ _ _ _ error Hlt Hans Hto).
      destruct (IH (attempt + 1)
                  (extend s [RpcBalanceOf c address;
                             ConsoleError (MsgAttemptTimeout attempt address);
                             Sleep delayMs]))
        as (new & Hst & HQ & Hreads & Hpauses & Hend & Hsome & _); [lia|].
      exists ([RpcBalanceOf c address; ConsoleError (MsgAttemptTimeout attempt address);
               Sleep delayMs] ++ new).
      rewrite Hst, extend_extend. split; [done|]. split.
      { apply Forall_app. split; [by repeat constructor | done]. }
      rewrite reads_made_app, pauses_app, !length_app. simpl.
      split; [lia|]. split; [lia|]. split; [done|].
      split; [intros _; apply Hsome; lia | lia].
    + assert (attempt = retries) as -> by lia.
      exists [RpcBalanceOf c address; ConsoleError (MsgAttemptTimeout retries address)].
      rewrite (fetch_gives_up _ _ _ _ _ _ _ error Hans Hto). simpl.
      repeat split; try done; [by repeat constructor | lia | lia].
Qed.

(** X1.  Whatever the endpoint answers, the retry loop ends, returning a
    balance or throwing, after at most [retries] balance reads and at most
    [retries - 1] pauses; all it does are reads of that balance, pauses of
    [delayMs] and timeout messages, and it touches neither the disk nor the
    checkpoint.  When [retries] is zero or less it reads nothing and returns
    [undefined]. *)
Theorem retry_loop_is_bounded (env : Env) (c : Contract) (address : Address)
    (retries delayMs : Z) (s : State) :
  exists new,
    (fetchBalanceWithRetries env c address retries delayMs s).2 = extend s new
    /\ Forall (balance_effect c address delayMs) new
    /\ (length (reads_made new) <= Z.to_nat retries)%nat
    /\ (length (pauses new) <= Z.to_nat retries - 1)%nat
    /\ (fetchBalanceWithRetries env c address retries delayMs s).1 <> Diverge
    /\ (0 < retries ->
        (fetchBalanceWithRetries env c address retries delayMs s).1 <> Return None)
    /\ (retries <= 0 ->
        fetchBalanceWithRetries env c address retries delayMs s = (Return None, s)).
Proof.
  destruct (fetch_bounded env c address retries delayMs (Z.to_nat retries) 1 s)
    as (new & Hst & HQ & Hreads & Hpauses & Hend & Hsome & _); [lia|].
  exists new. fold (fetchBalanceWithRetries env c address retries delayMs) in *.
  split; [done|]. split; [done|]. split; [lia|]. split; [lia|]. split; [done|].
  split; [intros; apply Hsome; lia|].
  intros Hle. unfold fetchBalanceWithRetries.
  assert (Hgt : (1 <=? retries) = false) by (apply Z.leb_gt; lia).
  destruct (Z.to_nat retries); simpl; by rewrite Hgt.
Qed.

(** ** The batches of a scan *)

Lemma batch_count_more (current toBlock batchSize : Z) :
  0 < batchSize -> current <= toBlock ->
  batch_count current toBlock batchSize = S (batch_count (current + batchSize) toBlock batchSize).
Proof.
  intros Hbs Hle. unfold batch_count.
  assert (H1 : (current <=? toBlock) = true) by (apply Z.leb_le; lia). rewrite H1.
  destruct (Z_le_gt_dec (current + batchSize) toBlock) as [Hmore|Hlast].
  - assert (H2 : (current + batchSize <=? toBlock) = true) by (apply Z.leb_le; lia).
    rewrite H2.
    replace (toBlock - current) with ((toBlock - (current + batchSize)) + 1 * batchSize) by lia.
    rewrite Z.div_add by lia.
    assert (0 <= (toBlock - (current + batchSize)) / batchSize) by (apply Z.div_pos; lia).
    lia.
  - assert (H2 : (current + batchSize <=? toBlock) = false) by (apply Z.leb_gt; lia).
    rewrite H2, Z.div_small by lia. done.
Qed.

Lemma batches_more (current toBlock batchSize : Z) :
  0 < batchSize -> current <= toBlock ->
  batches current toBlock batchSize =
  (current, Z.min (current + batchSize - 1) toBlock)
  :: batches (current + batchSize) toBlock batchSize.
Proof.
  intros Hbs Hle. unfold batches. rewrite (batch_count_more _ _ _ Hbs Hle). simpl.
  f_equal.
  - unfold nth_batch. simpl. by rewrite Z.add_0_r.
  - rewrite <- seq_shift, map_map. apply map_ext. intros k. unfold nth_batch.
    simpl. replace (current + Z.of_nat (S k) * batchSize)
      with (current + batchSize + Z.of_nat k * batchSize) by lia. done.
Qed.

Lemma batches_none (current toBlock batchSize : Z) :
  toBlock < current -> batches current toBlock batchSize = [].
Proof.
  intros Hgt. unfold batches, batch_count.
  assert (H : (current <=? toBlock) = false) by (apply Z.leb_gt; lia). by rewrite H.
Qed.

Lemma queried_app l1 l2 : queried (l1 ++ l2) = queried l1 ++ queried l2.
Proof. unfold queried. by rewrite flat_map_app. Qed.

Lemma queried_batch_effects {E} c filter r (outcome : JSError + list E) :
  queried (batch_effects c filter r outcome) = [r].
Proof. destruct r, outcome; reflexivity. Qed.

Lemma pages_batches (env : Env) (c : Contract) (filter : Filter) (toBlock batchSize : Z)
    (fuel : nat) :
  0 < batchSize ->
  forall current events s,
    (Z.to_nat (toBlock - current + 1) <= fuel)%nat ->
    exists events' new,
      queryFilterPaginated_from env fuel c filter toBlock batchSize current events s
      = (Return events', extend s new)
      /\ queried new = batches current toBlock batchSize.
Proof.
  intros Hbs. induction fuel as [|fuel IH]; intros current events s Hfuel.
  - exists events, []. assert (Hgt : (current <=? toBlock) = false) by (apply Z.leb_gt; lia).
    simpl. rewrite Hgt, extend_nil. split; [done|]. rewrite batches_none; [done | lia].
  - destruct (Z_le_gt_dec current toBlock) as [Hle|Hgt].
    + rewrite page_turn by done. cbv zeta.
      set (r := (current, Z.min (current + batchSize - 1) toBlock)).
      set (outcome := rpc_queryFilter env _ c filter _ _).
      destruct (IH (current + batchSize) (events ++ batch_events outcome)
                  (extend s (batch_effects c filter r outcome)))
        as (events' & new & Hrun & Hq); [lia|].
      exists events', (batch_effects c filter r outcome ++ new).
      rewrite Hrun, extend_extend. split; [done|].
      by rewrite queried_app, queried_batch_effects, Hq, (batches_more current).
    + exists events, []. assert (Hf : (current <=? toBlock) = false) by (apply Z.leb_gt; lia).
      simpl. rewrite Hf, extend_nil. split; [done|]. by rewrite batches_none by lia.
Qed.

(** X2.  With a batch size of one block or more the paginated fetcher makes
    one query per batch and no other: batch number [k] runs from
    [fromBlock + k * batchSize] to that plus [batchSize - 1], cut at
    [toBlock], and there are as many batches as the blocks of the range
    divided by [batchSize], rounded up.  An empty range ([toBlock] below
    [fromBlock]) gives no query, no effect and no event. *)
Theorem pagination_makes_one_query_per_batch (env : Env) (c : Contract) (filter : Filter)
    (fromBlock toBlock batchSize : Z) (s : State) :
  0 < batchSize ->
  (exists events new,
     queryFilterPaginated env c filter fromBlock toBlock batchSize s
     = (Return events, extend s new)
     /\ queried new = batches fromBlock toBlock batchSize
     /\ length (queried new) = batch_count fromBlock toBlock batchSize)
  /\ (toBlock < fromBlock ->
      queryFilterPaginated env c filter fromBlock toBlock batchSize s = (Return [], s)).
Proof.
  intros Hbs. split.
  - destruct (pages_batches env c filter toBlock batchSize
                (Z.to_nat (toBlock - fromBlock + 1)) Hbs fromBlock [] s)
      as (events & new & Hrun & Hq); [lia|].
    exists events, new. split; [exact Hrun|]. split; [exact Hq|].
    rewrite Hq. unfold batches. by rewrite length_map, length_seq.
  - intros Hempty. unfold queryFilterPaginated.
    assert (Hgt : (fromBlock <=? toBlock) = false) by (apply Z.leb_gt; lia).
    destruct (Z.to_nat _); simpl; by rewrite Hgt.
Qed.

(** The scan of the scenario: 7001 blocks in two batches. *)
Lemma pagination_makes_one_query_per_batch_witness :
  0 < 5000
  /\ batches 18672539 18679539 5000 = [(18672539, 18677538); (18677539, 18679539)]
  /\ exists events new,
       queryFilterPaginated Example.world FactoryContract PairCreatedFilter
         18672539 18679539 5000 (start Example.empty_disk)
       = (Return events, extend (start Example.empty_disk) new)
       /\ queried new = batches 18672539 18679539 5000
       /\ length (queried new) = batch_count 18672539 18679539 5000.
Proof.
  assert (H : 0 < 5000) by lia. split; [exact H|]. split; [reflexivity|].
  exact (proj1 (pagination_makes_one_query_per_batch Example.world FactoryContract
                  PairCreatedFilter 18672539 18679539 5000 (start Example.empty_disk) H)).
Defined.

(** ** A batch size of zero *)

Lemma pages_never_end (env : Env) (c : Contract) (filter : Filter) (toBlock batchSize : Z)
    (fuel : nat) :
  batchSize <= 0 ->
  forall current events s,
    current <= toBlock ->
    (queryFilterPaginated_from env fuel c filter toBlock batchSize current events s).1
    = Diverge.
Proof.
  intros Hbs. induction fuel as [|fuel IH]; intros current events s Hle.
  - simpl. apply Z.leb_le in Hle. by rewrite Hle.
  - rewrite page_turn by done. cbv zeta. apply IH. lia.
Qed.

(** X3.  With a batch size of zero or less and a range that is not empty,
    the loop of the paginated fetcher never ends, however many turns it is
    given: the loop variable never passes [toBlock]. *)
Theorem pagination_hangs_on_batch_size_zero (env : Env) (c : Contract) (filter : Filter)
    (fromBlock toBlock batchSize : Z) (s : State) :
  batchSize <= 0 -> fromBlock <= toBlock ->
  (forall fuel events,
     (queryFilterPaginated_from env fuel c filter toBlock batchSize fromBlock events s).1
     = Diverge)
  /\ (queryFilterPaginated env c filter fromBlock toBlock batchSize s).1 = Diverge.
Proof.
  intros Hbs Hle. split.
  - intros fuel events. by apply pages_never_end.
  - by apply pages_never_end.
Qed.

(** A scan of ten blocks with a batch size of zero. *)
Lemma pagination_hangs_on_batch_size_zero_witness :
  0 <= 0 /\ 1 <= 10
  /\ (queryFilterPaginated Example.world FactoryContract PairCreatedFilter 1 10 0
        (start Example.empty_disk)).1 = Diverge.
Proof.
  assert (H1 : 0 <= 0) by lia. assert (H2 : 1 <= 10) by lia.
  split; [exact H1|]. split; [exact H2|].
  exact (proj2 (pagination_hangs_on_batch_size_zero Example.world FactoryContract
                  PairCreatedFilter 1 10 0 (start Example.empty_disk) H1 H2)).
Defined.

(** ** Saving and loading the checkpoint *)

(** X4.  A checkpoint that is saved is loaded back: when the write does not
    fail, [saveCheckpoint] replaces whatever the file held by the text of
    the array and touches no other file; and from any state whose checkpoint
    file holds that text, [loadCheckpoint] returns the array that was saved,
    with no warning, provided the read does not fail and [JSON.parse] reads
    back what [JSON.stringify] wrote. *)
Theorem saved_checkpoint_is_loaded_back (env : Env) (filename : string)
    (cp : list Address) (s : State) :
  fs_fault env (trace s) (FsWrite filename (JSON_stringify env cp)) = None ->
  JSON_parse env (JSON_stringify env cp) = inr cp ->
  saveCheckpoint env filename cp s
  = (Return tt,
     mkState (trace s ++ [FsWrite filename (JSON_stringify env cp)])
       (<[filename := JSON_stringify env cp]> (files s)) (checkpoint s))
  /\ files (saveCheckpoint env filename cp s).2 !! filename = Some (JSON_stringify env cp)
  /\ (forall other, other <> filename ->
        files (saveCheckpoint env filename cp s).2 !! other = files s !! other)
  /\ (forall s2,
        files s2 !! filename = files (saveCheckpoint env filename cp s).2 !! filename ->
        fs_fault env (trace s2) (FsRead filename) = None ->
        loadCheckpoint env filename s2 = (Return cp, extend s2 [FsRead filename])).
Proof.
  intros Hwrite Hparse.
  assert (Hrun : saveCheckpoint env filename cp s
    = (Return tt,
       mkState (trace s ++ [FsWrite filename (JSON_stringify env cp)])
         (<[filename := JSON_stringify env cp]> (files s)) (checkpoint s))).
  { unfold saveCheckpoint. by rewrite fs_writeFileSync_run, Hwrite. }
  rewrite Hrun. simpl. split; [done|]. split; [by rewrite lookup_insert_eq|].
  split; [intros other Hne; by rewrite lookup_insert_ne|].
  intros s2 Hfile Hread. rewrite lookup_insert_eq in Hfile.
  unfold loadCheckpoint, bind at 1, fs_existsSync. rewrite Hfile.
  unfold try_catch, bind, fs_readFileSync, fs_call. rewrite Hread. simpl.
  by rewrite Hfile, Hparse.
Qed.

(** The checkpoint of the scenario, saved on an empty disk and loaded by the
    next process. *)
Lemma saved_checkpoint_is_loaded_back_witness :
  let s1 :=
    (saveCheckpoint Example.world CHECKPOINT_FILENAME [Example.poolA; Example.poolB]
       (start Example.empty_disk)).2 in
  fs_fault Example.world (trace (start Example.empty_disk))
    (FsWrite CHECKPOINT_FILENAME
       (JSON_stringify Example.world [Example.poolA; Example.poolB])) = None
  /\ JSON_parse Example.world (JSON_stringify Example.world [Example.poolA; Example.poolB])
     = inr [Example.poolA; Example.poolB]
  /\ loadCheckpoint Example.world CHECKPOINT_FILENAME (start (files s1))
     = (Return [Example.poolA; Example.poolB],
        extend (start (files s1)) [FsRead CHECKPOINT_FILENAME]).
Proof.
  intros s1.
  assert (H1 : fs_fault Example.world (trace (start Example.empty_disk))
                 (FsWrite CHECKPOINT_FILENAME
                    (JSON_stringify Example.world [Example.poolA; Example.poolB])) = None)
    by reflexivity.
  assert (H2 : JSON_parse Example.world
                 (JSON_stringify Example.world [Example.poolA; Example.poolB])
               = inr [Example.poolA; Example.poolB]) by (vm_compute; reflexivity).
  split; [exact H1|]. split; [exact H2|].
  exact (proj2 (proj2 (proj2 (saved_checkpoint_is_loaded_back Example.world
                                CHECKPOINT_FILENAME [Example.poolA; Example.poolB]
                                (start Example.empty_disk) H1 H2)))
           (start (files s1)) eq_refl eq_refl).
Defined.

(** ** The record sink *)

Lemma concat_LF_app (a b : list string) :
  a <> [] -> b <> [] ->
  String.concat LF (a ++ b) = (String.concat LF a ++ LF ++ String.concat LF b)%string.
Proof.
  intros Ha Hb. induction a as [|x a IH]; [done|].
  destruct a as [|y a].
  - simpl. destruct b; [done | reflexivity].
  - change (String.concat LF ((x :: y :: a) ++ b))
      with (x ++ LF ++ String.concat LF ((y :: a) ++ b))%string.
    rewrite IH by done.
    change (String.concat LF (x :: y :: a))
      with (x ++ LF ++ String.concat LF (y :: a))%string.
    by rewrite !string_app_assoc.
Qed.

Lemma csv_rows_app (env : Env) (records1 records2 : list HolderRecord) :
  records1 <> [] -> records2 <> [] ->
  csv_rows env (records1 ++ records2)
  = (csv_rows env records1 ++ csv_rows env records2)%string.
Proof.
  intros H1 H2. unfold csv_rows. rewrite map_app, concat_LF_app.
  - by rewrite !string_app_assoc.
  - by destruct records1.
  - by destruct records2.
Qed.

(** What the sink leaves when it returns. *)
Lemma sink_run (env : Env) (records : list HolderRecord) (filename : string) (s : State) :
  (appendRecordsToCSV env records filename s).1 = Return tt ->
  exists new,
    (appendRecordsToCSV env records filename s).2
    = mkState (trace s ++ new)
        (<[filename := (match files s !! filename with
                        | Some old => old
                        | None => CSV_HEADER ++ LF
                        end ++ csv_rows env records)%string]> (files s))
        (checkpoint s)
    /\ new = match files s !! filename with
             | Some _ => []
             | None => [FsWrite filename (CSV_HEADER ++ LF)%string]
             end
             ++ [FsAppend filename (csv_rows env records);
                 ConsoleLog (MsgAppended (Z.of_nat (length records)) filename)].
Proof.
  destruct (appendRecordsToCSV env records filename s) as [r s'] eqn:Hrun.
  simpl. intros ->. rewrite appendRecordsToCSV_unfold in Hrun.
  destruct (files s !! filename) as [old|] eqn:Hold.
  - unfold bind at 1 in Hrun. rewrite fs_appendFileSync_run in Hrun.
    destruct (fs_fault env _ _); [done|]. rewrite log_run in Hrun.
    injection Hrun as <-. eexists. split; [|reflexivity].
    unfold record_effect. simpl. by rewrite Hold, <- app_assoc.
  - unfold bind at 1 in Hrun. rewrite fs_writeFileSync_run in Hrun.
    destruct (fs_fault env _ _); [done|].
    unfold bind at 1 in Hrun. rewrite fs_appendFileSync_run in Hrun.
    destruct (fs_fault env _ _); [done|]. rewrite log_run in Hrun.
    injection Hrun as <-. eexists. split; [|reflexivity].
    unfold record_effect. simpl.
    by rewrite lookup_insert_eq, insert_insert_eq, <- !app_assoc.
Qed.

(** X5.  When the record sink returns, the file holds what it held before,
    or the header line if it was missing, followed by one line per record,
    in the order given; the header is written only when the file was
    missing; no other file and no part of the checkpoint array changes. *)
Theorem sink_appends_after_what_is_there (env : Env) (records : list HolderRecord)
    (filename : string) (s : State) :
  (appendRecordsToCSV env records filename s).1 = Return tt ->
  files (appendRecordsToCSV env records filename s).2 !! filename
  = Some (match files s !! filename with
          | Some old => old
          | None => CSV_HEADER ++ LF
          end ++ csv_rows env records)%string
  /\ (forall other, other <> filename ->
        files (appendRecordsToCSV env records filename s).2 !! other = files s !! other)
  /\ checkpoint (appendRecordsToCSV env records filename s).2 = checkpoint s
  /\ (exists new,
        trace (appendRecordsToCSV env records filename s).2 = trace s ++ new
        /\ (forall old, files s !! filename = Some old ->
             forall f data, FsWrite f data ∉ new)).
Proof.
  intros Hret. destruct (sink_run env records filename s Hret) as (new & -> & Hnew).
  simpl. split; [by rewrite lookup_insert_eq|].
  split; [intros other Hne; by rewrite lookup_insert_ne|]. split; [done|].
  exists new. split; [done|].
  intros old Hold f data. rewrite Hold in Hnew. simpl in Hnew. subst new.
  intros Hin. apply elem_of_cons in Hin as [Heq|Hin]; [done|].
  by apply list_elem_of_singleton in Hin.
Qed.

(** One qualifying holder of pool B, appended to a disk with no CSV file. *)
Lemma sink_appends_after_what_is_there_witness :
  let records := [mkRecord Example.poolB Example.holder1 1000%float 5000%float] in
  (appendRecordsToCSV Example.world records CSV_FILENAME (start Example.empty_disk)).1
  = Return tt
  /\ files (appendRecordsToCSV Example.world records CSV_FILENAME
              (start Example.empty_disk)).2 !! CSV_FILENAME
     = Some ((CSV_HEADER ++ LF) ++ csv_rows Example.world records)%string.
Proof.
  intros records.
  assert (H : (appendRecordsToCSV Example.world records CSV_FILENAME
                 (start Example.empty_disk)).1 = Return tt) by (vm_compute; reflexivity).
  split; [exact H|].
  exact (proj1 (sink_appends_after_what_is_there Example.world records CSV_FILENAME
                  (start Example.empty_disk) H)).
Defined.

(** X6.  Two calls of the record sink with non-empty batches leave the file
    as one call with the two batches joined would: the old content, or the
    header line if the file was missing, then the rows of the first batch,
    then those of the second, with no blank line between them; and the second
    call writes no header. *)
Theorem two_appends_are_one (env : Env) (records1 records2 : list HolderRecord)
    (filename : string) (s : State) :
  records1 <> [] -> records2 <> [] ->
  (appendRecordsToCSV env records1 filename s).1 = Return tt ->
  (appendRecordsToCSV env records2 filename
     (appendRecordsToCSV env records1 filename s).2).1 = Return tt ->
  files (appendRecordsToCSV env records2 filename
           (appendRecordsToCSV env records1 filename s).2).2 !! filename
  = Some (match files s !! filename with
          | Some old => old
          | None => CSV_HEADER ++ LF
          end ++ csv_rows env (records1 ++ records2))%string
  /\ trace (appendRecordsToCSV env records2 filename
              (appendRecordsToCSV env records1 filename s).2).2
     = trace (appendRecordsToCSV env records1 filename s).2
       ++ [FsAppend filename (csv_rows env records2);
           ConsoleLog (MsgAppended (Z.of_nat (length records2)) filename)].
Proof.
  intros Hne1 Hne2 Hret1 Hret2.
  destruct (sink_run env records1 filename s Hret1) as (new1 & Hs1 & _).
  destruct (sink_run env records2 filename _ Hret2) as (new2 & Hs2 & Hnew2).
  rewrite Hs2. rewrite Hs1 in Hnew2 |- *. simpl in Hnew2 |- *.
  rewrite lookup_insert_eq in Hnew2 |- *. simpl in Hnew2. subst new2.
  split; [|done].
  by rewrite lookup_insert_eq, csv_rows_app, string_app_assoc.
Qed.

(** Two holders of pool B, appended one after the other to an empty disk. *)
Lemma two_appends_are_one_witness :
  let r1 := [mkRecord Example.poolB Example.holder1 1000%float 5000%float] in
  let r2 := [mkRecord Example.poolB Example.holder2 1200%float 6000%float] in
  let s1 := (appendRecordsToCSV Example.world r1 CSV_FILENAME (start Example.empty_disk)).2 in
  files (appendRecordsToCSV Example.world r2 CSV_FILENAME s1).2 !! CSV_FILENAME
  = Some ((CSV_HEADER ++ LF) ++ csv_rows Example.world (r1 ++ r2))%string.
Proof.
  intros r1 r2 s1.
  refine (proj1 (two_appends_are_one Example.world r1 r2 CSV_FILENAME
                   (start Example.empty_disk) _ _ _ _)).
  - discriminate.
  - discriminate.
  - vm_compute; reflexivity.
  - vm_compute; reflexivity.
Defined.

(** ** The run of [main], step by step *)

Lemma own_effect_quiet e : own_effect e -> not_checkpoint_write e.
Proof. destruct e; simpl; tauto. Qed.

Lemma batch_effect_quiet c filter e : batch_effect c filter e -> not_checkpoint_write e.
Proof. destruct e; simpl; tauto. Qed.

Lemma balance_effect_quiet c address delayMs e :
  balance_effect c address delayMs e -> not_checkpoint_write e.
Proof. destruct e; simpl; tauto. Qed.

(** When the chain height is read, [main] loads the checkpoint, discovers
    the pairs, gives a turn to each pair that is not in the checkpoint, and
    returns. *)
Lemma main_shape (env : Env) (disk : gmap string string) (latest : Z) :
  rpc_getBlockNumber env [] = inr latest ->
  exists loaded l3 pairs l5 l8 s3 s5 s8,
    let s2 :=
      extend (start disk)
        [RpcGetBlockNumber; ConsoleLog (MsgScraping 18672539 latest 5000)] in
    let s4 :=
      record_effect (ConsoleLog (MsgCheckpointLoaded loaded))
        (mkState (trace s3) (files s3) loaded) in
    let pools := unprocessed loaded pairs in
    let s7 :=
      extend s5 [ConsoleLog (MsgFoundPairs pairs);
                 ConsoleLog (MsgProcessingNew (Z.of_nat (length pools)))] in
    loadCheckpoint env CHECKPOINT_FILENAME s2 = (Return loaded, s3)
    /\ trace s3 = trace s2 ++ l3 /\ Forall own_effect l3
    /\ files s3 !! CHECKPOINT_FILENAME = disk !! CHECKPOINT_FILENAME
    /\ getLPPairAddresses env 18672539 latest 5000 s4 = (Return pairs, s5)
    /\ trace s5 = trace s4 ++ l5 /\ Forall own_effect l5
    /\ checkpoint s5 = loaded
    /\ files s5 !! CHECKPOINT_FILENAME = disk !! CHECKPOINT_FILENAME
    /\ processPairs env 18672539 latest 5000 pools s7 = (Return tt, s8)
    /\ trace s8 = trace s7 ++ l8
    /\ Forall (fun e => exists lp, lp ∈ pools /\ pair_effect env lp e) l8
    /\ main env (start disk) = (Return tt, extend s8 [ConsoleLog MsgScrapingComplete]).
Proof.
  intros Hheight. unfold main. set (s0 := start disk).
  pose proof (await_run RpcGetBlockNumber (rpc_getBlockNumber env) s0) as H1.
  fold (provider_getBlockNumber env) in H1.
  change (trace s0) with (@nil Effect) in H1. rewrite Hheight in H1.
  rewrite (bind_return _ _ _ _ _ H1). clear H1.
  set (s1 := record_effect RpcGetBlockNumber s0).
  rewrite (bind_return _ _ _ _ _ (log_run _ s1)).
  set (s2 := record_effect _ s1).
  destruct (sat_loadCheckpoint env s2) as [Hev3 Hpost3].
  destruct (loadCheckpoint env CHECKPOINT_FILENAME s2) as [[loaded|?|] s3] eqn:H3;
    simpl in Hpost3; try done.
  rewrite (bind_return _ _ _ _ _ H3).
  unfold set_checkpoint at 1, bind at 1. unfold get_checkpoint at 1, bind at 1. simpl.
  rewrite (bind_return _ _ _ _ _ (log_run _ _)).
  set (s4 := record_effect _ _).
  assert (Hbs : 0 < 5000) by lia.
  destruct (sat_getLPPairAddresses env 18672539 latest 5000 Hbs s4) as [Hev5 Hpost5].
  destruct (getLPPairAddresses env 18672539 latest 5000 s4) as [[pairs|?|] s5] eqn:H5;
    simpl in Hpost5; try done.
  rewrite (bind_return _ _ _ _ _ H5).
  rewrite (bind_return _ _ _ _ _ (log_run _ s5)).
  set (s6 := record_effect _ s5).
  rewrite (bind_return _ _ _ _ _ (log_run _ s6)).
  set (s7 := record_effect _ s6).
  destruct (sat_processPairs env 18672539 latest 5000 (unprocessed loaded pairs) Hbs s7)
    as [Hev8 Hpost8].
  destruct (processPairs env 18672539 latest 5000 (unprocessed loaded pairs) s7)
    as [[[]|?|] s8] eqn:H8; simpl in Hpost8; try done.
  rewrite (bind_return _ _ _ _ _ H8). rewrite log_run.
  destruct Hev3 as (l3 & Ht3 & HQ3 & _ & Hk3).
  destruct Hev5 as (l5 & Ht5 & HQ5 & _ & Hk5).
  destruct Hev8 as (l8 & Ht8 & HQ8 & _ & _).
  simpl in Ht3, Ht5, Ht8.
  destruct Hk3 as [_ Hf3]; [by eapply Forall_impl; [exact HQ3 | apply own_effect_quiet]|].
  destruct Hk5 as [Hc5 Hf5]; [by eapply Forall_impl; [exact HQ5 | apply own_effect_quiet]|].
  simpl in Hf3, Hc5, Hf5.
  exists loaded, l3, pairs, l5, l8, s3, s5, s8. cbv zeta.
  split; [exact H3|]. split; [exact Ht3|]. split; [exact HQ3|]. split; [exact Hf3|].
  split; [exact H5|]. split; [exact Ht5|]. split; [exact HQ5|]. split; [exact Hc5|].
  split; [by rewrite Hf5|].
  assert (Hs7 : s7 = extend s5 [ConsoleLog (MsgFoundPairs pairs);
                                 ConsoleLog (MsgProcessingNew
                                   (Z.of_nat (length (unprocessed loaded pairs))))]).
  { unfold s7, s6, record_effect, extend. simpl. by rewrite <- app_assoc. }
  rewrite <- Hs7. split; [exact H8|]. split; [|by split].
  rewrite Ht8. simpl. by rewrite <- !app_assoc.
Qed.


(** ** The loop of [main] on a disk that takes every write *)

Lemma keeps_sat {A} (m : M A) :
  sat not_checkpoint_write m (returns anything) -> keeps_checkpoint m.
Proof.
  intros Hsat s. destruct (Hsat s) as [(l & _ & Hl & _ & Hkept) Hpost].
  destruct (m s) as [[a|?|] s']; try done.
  exists a, s'. split; [done|]. by apply Hkept.
Qed.

Lemma records_bind {A} (env : Env) (lp : Address) (m : M A) (k : A -> M unit) :
  keeps_checkpoint m -> (forall a, records_pool env lp (k a)) ->
  records_pool env lp (bind m k).
Proof.
  intros Hm Hk s. destruct (Hm s) as (a & s1 & Hrun & Hcp).
  destruct (Hk a s1) as (s' & Hrest & Hcp' & Hfile).
  exists s'. rewrite (bind_return _ _ _ _ _ Hrun), <- Hcp. done.
Qed.

Section Healthy.
Variable env : Env.
Hypothesis Hdisk : writes_succeed env.

Lemma sink_returns (records : list HolderRecord) (filename : string) (s : State) :
  (appendRecordsToCSV env records filename s).1 = Return tt.
Proof.
  rewrite appendRecordsToCSV_unfold. destruct (files s !! filename).
  - unfold bind at 1. rewrite fs_appendFileSync_run.
    rewrite (proj2 (Hdisk _ _ _)). by rewrite log_run.
  - unfold bind at 1. rewrite fs_writeFileSync_run. rewrite (proj1 (Hdisk _ _ _)).
    unfold bind at 1. rewrite fs_appendFileSync_run.
    rewrite (proj2 (Hdisk _ _ _)). by rewrite log_run.
Qed.

Lemma keeps_appendRecordsToCSV (records : list HolderRecord) (filename : string) :
  keeps_checkpoint (appendRecordsToCSV env records filename).
Proof.
  intros s. pose proof (sink_returns records filename s) as Hret.
  destruct (sink_run env records filename s Hret) as (new & Hs' & _).
  destruct (appendRecordsToCSV env records filename s) as [r s'].
  simpl in Hret, Hs'. subst r s'. by eexists tt, _.
Qed.

Lemma keeps_getLiquidityPoolValue (lp : Address) (decimals : Z) :
  keeps_checkpoint (getLiquidityPoolValue env lp decimals).
Proof.
  apply keeps_sat. unfold getLiquidityPoolValue.
  eapply sat_catch with (P := anything); [| |done].
  - eapply sat_bind_ends with (P := anything); [apply sat_await; side|]. intros bn _.
    eapply sat_bind_ends with (P := anything); [apply sat_ret; side|].
    intros. apply sat_ret; side.
  - intros err. eapply sat_bind_returns; [apply sat_error; side|].
    intros. apply sat_ret; side.
Qed.

Lemma keeps_getLPHolders (lp : Address) (fromBlock toBlock batchSize : Z) :
  0 < batchSize -> keeps_checkpoint (getLPHolders env lp fromBlock toBlock batchSize).
Proof.
  intros Hbs. apply keeps_sat. unfold getLPHolders. eapply sat_bind_returns.
  - eapply sat_pre; [apply batch_effect_quiet | by apply sat_queryFilterPaginated].
  - intros. apply sat_ret; side.
Qed.

Lemma keeps_checkLPHolderValue (lp : Address) (holders : list Address) (price : float)
    (decimals : Z) :
  keeps_checkpoint (checkLPHolderValue env lp holders price decimals).
Proof.
  apply keeps_sat. unfold checkLPHolderValue. generalize (@nil HolderRecord).
  induction holders as [|addr rest IH]; intros acc; simpl; [apply sat_ret; side|].
  eapply sat_bind_returns with (P := anything); [|intros; by apply IH].
  eapply sat_catch with (P := anything); [| |done].
  - eapply sat_bind_ends with (P := anything).
    + eapply sat_pre; [apply balance_effect_quiet | apply sat_fetchBalanceWithRetries].
    + intros [bn|] _; [|apply sat_throw; side].
      destruct (5000 <=? _)%float; apply sat_ret; side.
  - intros err. eapply sat_bind_returns; [apply sat_error; side|].
    intros. apply sat_ret; side.
Qed.

Lemma records_step (lp : Address) :
  records_pool env lp
    (checkpoint_push lp ;;
     checkpoint <- get_checkpoint ;;
     saveCheckpoint env CHECKPOINT_FILENAME checkpoint).
Proof.
  intros s.
  set (s1 := mkState (trace s) (files s) (checkpoint s ++ [lp])).
  assert (Hrun :
    (checkpoint_push lp ;;
     checkpoint <- get_checkpoint ;;
     saveCheckpoint env CHECKPOINT_FILENAME checkpoint) s
    = fs_writeFileSync env CHECKPOINT_FILENAME (JSON_stringify env (checkpoint s1)) s1)
    by done.
  rewrite Hrun, fs_writeFileSync_run, (proj1 (Hdisk _ _ _)).
  eexists. split; [done|]. simpl. by rewrite lookup_insert_eq.
Qed.

(** The [try] block of the loop returns and records the pool, whatever the
    endpoint answers. *)
Lemma processPair_records (fromBlock toBlock batchSize : Z) (lp : Address) :
  0 < batchSize ->
  records_pool env lp (processPair env fromBlock toBlock batchSize lp).
Proof.
  intros Hbs. unfold processPair.
  apply records_bind; [apply keeps_getLiquidityPoolValue|]. intros poolValue.
  apply records_bind; [apply keeps_sat, sat_log; side|]. intros _.
  destruct (20000 <=? poolValue)%float.
  { apply records_bind; [apply keeps_sat, sat_log; side|]. intros _.
    apply records_step. }
  apply records_bind; [by apply keeps_getLPHolders|]. intros holders.
  apply records_bind; [apply keeps_sat, sat_log; side|]. intros _.
  apply records_bind; [apply keeps_sat, sat_ret; side|]. intros price.
  apply records_bind; [apply keeps_checkLPHolderValue|]. intros qualifyingHolders.
  apply records_bind; [apply keeps_sat, sat_log; side|]. intros _.
  apply records_bind; [apply keeps_sat, sat_table; side|]. intros _.
  apply records_bind; [|intros; apply records_step].
  destruct (0 <? Z.of_nat (length qualifyingHolders));
    [apply keeps_appendRecordsToCSV | apply keeps_sat, sat_ret; side].
Qed.

(** The loop of [main] returns, with its pools added to the checkpoint array
    in the order of their turns, and the text of the array in the checkpoint
    file as soon as one pool had its turn. *)
Lemma processPairs_records (fromBlock toBlock batchSize : Z) :
  0 < batchSize ->
  forall pools s,
    exists s',
      processPairs env fromBlock toBlock batchSize pools s = (Return tt, s')
      /\ checkpoint s' = checkpoint s ++ pools
      /\ files s' !! CHECKPOINT_FILENAME
         = match pools with
           | [] => files s !! CHECKPOINT_FILENAME
           | _ => Some (JSON_stringify env (checkpoint s ++ pools))
           end.
Proof.
  intros Hbs. induction pools as [|lp rest IH]; intros s.
  - exists s. by rewrite app_nil_r.
  - destruct (processPair_records fromBlock toBlock batchSize lp Hbs
                (record_effect (ConsoleLog (MsgProcessingPair lp)) s))
      as (s1 & Hrun & Hcp & Hfile).
    destruct (IH s1) as (s' & Hrest & Hcp' & Hfile').
    assert (Hguard : processPairGuarded env fromBlock toBlock batchSize lp s
                     = (Return tt, s1)).
    { unfold processPairGuarded. rewrite (bind_return _ _ _ _ _ (log_run _ s)).
      exact (try_return _ _ _ _ _ Hrun). }
    exists s'. simpl. rewrite (bind_return _ _ _ _ _ Hguard).
    split; [exact Hrest|]. simpl in Hcp. rewrite Hcp, <- app_assoc in Hcp'.
    split; [exact Hcp'|]. rewrite Hfile'. destruct rest; [|by rewrite Hcp, <- app_assoc].
    by rewrite Hfile.
Qed.
End Healthy.



(** A checkpoint file that holds the text of [cp] is loaded as [cp]. *)
Lemma load_reads_back (env : Env) (filename data : string) (cp : list Address)
    (s : State) :
  files s !! filename = Some data ->
  fs_fault env (trace s) (FsRead filename) = None ->
  JSON_parse env data = inr cp ->
  loadCheckpoint env filename s = (Return cp, extend s [FsRead filename]).
Proof.
  intros Hfile Hread Hparse.
  unfold loadCheckpoint, bind at 1, fs_existsSync. rewrite Hfile.
  unfold try_catch, bind, fs_readFileSync, fs_call. rewrite Hread. simpl.
  by rewrite Hfile, Hparse.
Qed.



(** ** The pool gate *)

(** The value of a pool: its supply at five dollars a token, or zero, with a
    message, when the supply cannot be read. *)
Lemma getLiquidityPoolValue_run (env : Env) (lp : Address) (decimals : Z) (s : State) :
  getLiquidityPoolValue env lp decimals s
  = match rpc_totalSupply env (trace s) (LPTokenContract lp) with
    | inr totalSupplyBN =>
        (Return (units_to_number env totalSupplyBN decimals * 5)%float,
         extend s [RpcTotalSupply (LPTokenContract lp)])
    | inl err =>
        (Return 0%float,
         extend s [RpcTotalSupply (LPTokenContract lp);
                   ConsoleError (MsgTotalSupplyError lp err)])
    end.
Proof.
  unfold getLiquidityPoolValue, try_catch, bind at 1, contract_totalSupply, await.
  destruct (rpc_totalSupply env (trace s) (LPTokenContract lp)); [|done].
  rewrite (bind_return _ _ _ _ _ (error_run _ _)).
  unfold ret, record_effect, extend. simpl. by rewrite <- app_assoc.
Qed.

(** The branch of the gate that skips the pool. *)
Lemma skip_run (env : Env) (lp : Address) (s : State) :
  exists r s',
    (console_log (MsgSkipping lp) ;;
     checkpoint_push lp ;;
     checkpoint <- get_checkpoint ;;
     saveCheckpoint env CHECKPOINT_FILENAME checkpoint) s = (r, s')
    /\ r <> Diverge
    /\ trace s'
       = trace s ++ [ConsoleLog (MsgSkipping lp);
                     FsWrite CHECKPOINT_FILENAME (JSON_stringify env (checkpoint s ++ [lp]))]
    /\ checkpoint s' = checkpoint s ++ [lp].
Proof.
  rewrite (bind_return _ _ _ _ _ (log_run _ s)).
  set (s0 := record_effect _ s).
  set (s1 := mkState (trace s0) (files s0) (checkpoint s0 ++ [lp])).
  assert (Hrun :
    (checkpoint_push lp ;;
     checkpoint <- get_checkpoint ;;
     saveCheckpoint env CHECKPOINT_FILENAME checkpoint) s0
    = fs_writeFileSync env CHECKPOINT_FILENAME (JSON_stringify env (checkpoint s1)) s1)
    by done.
  rewrite Hrun, fs_writeFileSync_run.
  destruct (fs_fault env _ _); eexists _, _; (split; [reflexivity|]); simpl;
    rewrite <- app_assoc; done.
Qed.

(** The branch of the gate that scrapes the pool: holder discovery scans
    the whole range first. *)
Lemma scrape_run (env : Env) (fromBlock toBlock batchSize : Z) (lp : Address) (s : State) :
  0 < batchSize ->
  exists r s' new l,
    (holders <- getLPHolders env lp fromBlock toBlock batchSize ;;
     console_log (MsgFoundHolders (Z.of_nat (length holders)) lp) ;;
     lpTokenUSDValue <- getLPTokenUSDValue lp ;;
     qualifyingHolders <- checkLPHolderValue env lp holders lpTokenUSDValue 18 ;;
     console_log (MsgQualifying lp) ;;
     console_table qualifyingHolders ;;
     (if 0 <? Z.of_nat (length qualifyingHolders) then
        appendRecordsToCSV env qualifyingHolders CSV_FILENAME
      else ret tt) ;;
     checkpoint_push lp ;;
     checkpoint <- get_checkpoint ;;
     saveCheckpoint env CHECKPOINT_FILENAME checkpoint) s = (r, s')
    /\ r <> Diverge
    /\ trace s' = trace s ++ new ++ l
    /\ queried new = batches fromBlock toBlock batchSize
    /\ Forall (batch_effect (LPTokenContract lp) (TransferFilter (Some ZeroAddress) None))
         new.
Proof.
  intros Hbs.
  destruct (pages_batches env (LPTokenContract lp) (TransferFilter (Some ZeroAddress) None)
              toBlock batchSize (Z.to_nat (toBlock - fromBlock + 1)) Hbs fromBlock [] s)
    as (events & new & Hscan & Hq); [lia|].
  fold (queryFilterPaginated env (LPTokenContract lp)
          (TransferFilter (Some ZeroAddress) None) fromBlock toBlock batchSize) in Hscan.
  assert (Hnew : Forall (batch_effect (LPTokenContract lp)
                           (TransferFilter (Some ZeroAddress) None)) new).
  { destruct (sat_queryFilterPaginated env (LPTokenContract lp)
                (TransferFilter (Some ZeroAddress) None) fromBlock toBlock batchSize Hbs s)
      as [(l & Ht & Hl & _) _].
    rewrite Hscan in Ht. simpl in Ht. apply app_inv_head in Ht. by subst. }
  assert (Hholders : getLPHolders env lp fromBlock toBlock batchSize s
                     = (Return (unique (map args_to events)), extend s new)).
  { unfold getLPHolders. by rewrite (bind_return _ _ _ _ _ Hscan). }
  rewrite (bind_return _ _ _ _ _ Hholders).
  set (holders := unique (map args_to events)).
  match goal with
  | |- context [?m (extend s new) = _] =>
      assert (Hsat : sat (pair_effect env lp) m (ends anything))
  end.
  { eapply sat_bind_ends; [apply sat_returns_ends, sat_log; side|]. intros _ _.
    eapply sat_bind_ends with (P := anything); [apply sat_ret; side|]. intros price _.
    eapply sat_bind_ends; [apply sat_returns_ends, sat_checkLPHolderValue|].
    intros qualifyingHolders Hof.
    eapply sat_bind_ends; [apply sat_returns_ends, sat_log; side|]. intros _ _.
    eapply sat_bind_ends; [apply sat_returns_ends, sat_table; side|]. intros _ _.
    eapply sat_bind_ends with (P := anything); [|intros; apply sat_record_processed].
    destruct (0 <? Z.of_nat (length qualifyingHolders)) eqn:Hlen; [|apply sat_ret; side].
    apply sat_appendRecordsToCSV; [|done]. intros ->. discriminate Hlen. }
  destruct (Hsat (extend s new)) as [(l & Ht & _) Hpost].
  match goal with
  | |- context [?m (extend s new) = _] => destruct (m (extend s new)) as [r s'] eqn:Hrun
  end.
  simpl in Ht, Hpost. exists r, s', new, l. split; [done|]. split.
  { intros ->. exact Hpost. }
  split; [by rewrite Ht, <- app_assoc | done].
Qed.

(** X10.  The pool gate as the code runs it.  The value of a pool is its
    supply at five dollars a token, and zero, after a message, when the
    supply cannot be read; reading it never fails.  The value is printed,
    and then: when 20000 <= value, the turn prints that it skips the pool,
    adds the pool to the checkpoint array and writes the checkpoint file,
    and does nothing else; otherwise holder discovery scans every batch of
    the block range on the LP token of the pool before anything else is
    done.  A pool whose supply cannot be read is therefore scanned. *)
Theorem gate_decides_by_pool_value (env : Env) (fromBlock toBlock batchSize : Z)
    (lp : Address) (s : State) :
  0 < batchSize ->
  exists poolValue s1 r s',
    getLiquidityPoolValue env lp 18 s = (Return poolValue, s1)
    /\ match rpc_totalSupply env (trace s) (LPTokenContract lp) with
       | inr totalSupplyBN =>
           poolValue = (units_to_number env totalSupplyBN 18 * 5)%float
           /\ s1 = extend s [RpcTotalSupply (LPTokenContract lp)]
       | inl err =>
           poolValue = 0%float
           /\ (20000 <=? poolValue)%float = false
           /\ s1 = extend s [RpcTotalSupply (LPTokenContract lp);
                             ConsoleError (MsgTotalSupplyError lp err)]
       end
    /\ processPair env fromBlock toBlock batchSize lp s = (r, s')
    /\ r <> Diverge
    /\ if (20000 <=? poolValue)%float then
         trace s'
         = trace s1
           ++ [ConsoleLog (MsgPoolValue lp poolValue);
               ConsoleLog (MsgSkipping lp);
               FsWrite CHECKPOINT_FILENAME (JSON_stringify env (checkpoint s ++ [lp]))]
         /\ checkpoint s' = checkpoint s ++ [lp]
       else
         exists new l,
           trace s' = trace s1 ++ [ConsoleLog (MsgPoolValue lp poolValue)] ++ new ++ l
           /\ queried new = batches fromBlock toBlock batchSize
           /\ Forall (batch_effect (LPTokenContract lp)
                        (TransferFilter (Some ZeroAddress) None)) new.
Proof.
  intros Hbs.
  pose proof (getLiquidityPoolValue_run env lp 18 s) as Hval.
  assert (Hshape : exists poolValue s1,
            getLiquidityPoolValue env lp 18 s = (Return poolValue, s1)
            /\ checkpoint s1 = checkpoint s
            /\ match rpc_totalSupply env (trace s) (LPTokenContract lp) with
               | inr totalSupplyBN =>
                   poolValue = (units_to_number env totalSupplyBN 18 * 5)%float
                   /\ s1 = extend s [RpcTotalSupply (LPTokenContract lp)]
               | inl err =>
                   poolValue = 0%float
                   /\ (20000 <=? poolValue)%float = false
                   /\ s1 = extend s [RpcTotalSupply (LPTokenContract lp);
                                     ConsoleError (MsgTotalSupplyError lp err)]
               end).
  { destruct (rpc_totalSupply env (trace s) (LPTokenContract lp)) as [err|bn];
      eexists _, _; (split; [exact Hval|]); by repeat split. }
  destruct Hshape as (poolValue & s1 & Hrun1 & Hcp1 & Hcase).
  exists poolValue, s1. unfold processPair.
  rewrite (bind_return _ _ _ _ _ Hrun1), (bind_return _ _ _ _ _ (log_run _ s1)).
  destruct (20000 <=? poolValue)%float.
  - destruct (skip_run env lp (record_effect (ConsoleLog (MsgPoolValue lp poolValue)) s1))
      as (r & s' & Hrun & Hr & Ht & Hcp).
    exists r, s'. split; [done|]. split; [done|]. split; [exact Hrun|]. split; [exact Hr|].
    simpl in Ht, Hcp. rewrite Ht, Hcp, Hcp1, <- app_assoc. done.
  - destruct (scrape_run env fromBlock toBlock batchSize lp
                (record_effect (ConsoleLog (MsgPoolValue lp poolValue)) s1) Hbs)
      as (r & s' & new & l & Hrun & Hr & Ht & Hq & Hnew).
    exists r, s'. split; [done|]. split; [done|]. split; [exact Hrun|]. split; [exact Hr|].
    exists new, l. simpl in Ht. by rewrite Ht, <- app_assoc.
Qed.

(** The pools of the scenario: [0xA], worth 25 000 dollars, is skipped. *)
Lemma gate_decides_by_pool_value_witness :
  0 < 5000
  /\ exists poolValue s1 r s',
       getLiquidityPoolValue Example.world Example.poolA 18 (start Example.empty_disk)
       = (Return poolValue, s1)
       /\ processPair Example.world 18672539 18679539 5000 Example.poolA
            (start Example.empty_disk) = (r, s')
       /\ r <> Diverge.
Proof.
  assert (H1 : 0 < 5000) by lia.
  split; [exact H1|].
  destruct (gate_decides_by_pool_value Example.world 18672539 18679539 5000 Example.poolA
              (start Example.empty_disk) H1)
    as (poolValue & s1 & r & s' & Hval & _ & Hrun & Hr & _).
  exists poolValue, s1, r, s'. split; [exact Hval|]. split; [exact Hrun | exact Hr].
Defined.

(** ** The first version of holder qualification *)

Lemma bind_ext {A B} (m1 m2 : M A) (k1 k2 : A -> M B) (s : State) :
  m1 s = m2 s -> (forall a s', k1 a s' = k2 a s') -> bind m1 k1 s = bind m2 k2 s.
Proof.
  intros Hm Hk. unfold bind. rewrite Hm. destruct (m2 s) as [[a| |] s']; auto.
Qed.

(** X11.  The two versions of holder qualification agree as long as no
    balance read times out: on the same holders, from the same state, the
    single read of the first version and the retry loop of the resumable
    script make the same reads, print the same messages and return the same
    records.  The retry loop changes the outcome only for reads that time
    out. *)
Theorem single_read_agrees_without_timeouts (env : Env) (lp : Address)
    (holders : list Address) (price : float) (decimals : Z) (s : State) :
  no_timeout env (LPTokenContract lp) holders ->
  ScrapeLP.checkLPHolderValue env lp holders price decimals s
  = checkLPHolderValue env lp holders price decimals s.
Proof.
  unfold ScrapeLP.checkLPHolderValue, checkLPHolderValue.
  generalize (@nil HolderRecord). revert s.
  induction holders as [|addr rest IH]; intros s acc Hcalm; [done|].
  simpl. apply bind_ext.
  - assert (Hthis : forall error,
              rpc_balanceOf env (trace s) (LPTokenContract lp) addr = inl error ->
              is_timeout error = false).
    { intros error. apply Hcalm, list_elem_of_here. }
    pose proof (await_run (RpcBalanceOf (LPTokenContract lp) addr)
                  (fun h => rpc_balanceOf env h (LPTokenContract lp) addr) s) as Hold.
    fold (contract_balanceOf env (LPTokenContract lp) addr) in Hold.
    unfold fetchBalanceWithRetries. change (Z.to_nat 3) with 3%nat.
    destruct (rpc_balanceOf env (trace s) (LPTokenContract lp) addr) as [error|v] eqn:Hans;
      simpl in Hold.
    + pose proof (fetch_rejects env (LPTokenContract lp) addr 3 2000 2 1 s error
                    ltac:(lia) Hans (Hthis error eq_refl)) as Hnew.
      unfold try_catch.
      by rewrite (bind_throw _ _ _ _ _ Hold), (bind_throw _ _ _ _ _ Hnew).
    + pose proof (fetch_resolves env (LPTokenContract lp) addr 3 2000 2 1 s v
                    ltac:(lia) Hans) as Hnew.
      unfold try_catch.
      by rewrite (bind_return _ _ _ _ _ Hold), (bind_return _ _ _ _ _ Hnew).
  - intros acc' s'. apply IH. intros history a error Ha.
    apply Hcalm. by apply list_elem_of_further.
Qed.

(** The holder [0xh2] of the scenario, whose balance is read at once. *)
Lemma single_read_agrees_without_timeouts_witness :
  no_timeout Example.world (LPTokenContract Example.poolB) [Example.holder2]
  /\ ScrapeLP.checkLPHolderValue Example.world Example.poolB [Example.holder2] 5%float 18
       (start Example.empty_disk)
     = checkLPHolderValue Example.world Example.poolB [Example.holder2] 5%float 18
         (start Example.empty_disk).
Proof.
  assert (H : no_timeout Example.world (LPTokenContract Example.poolB) [Example.holder2]).
  { intros history addr error Hin Hans. apply list_elem_of_singleton in Hin. subst addr.
    discriminate Hans. }
  split; [exact H|].
  exact (single_read_agrees_without_timeouts Example.world Example.poolB [Example.holder2]
           5%float 18 (start Example.empty_disk) H).
Defined.

(** ** Holder qualification is bounded *)

Lemma holders_bounded (env : Env) (lp : Address) (price : float) (decimals : Z)
    (holders : list Address) :
  forall acc s,
    exists records new,
      checkLPHolderValue_from env lp (LPTokenContract lp) price decimals holders acc s
      = (Return records, extend s new)
      /\ (length holders <= length (reads_made new) <= 3 * length holders)%nat
      /\ (length (pauses new) <= 2 * length holders)%nat
      /\ Forall (fun delay => delay = 2000) (pauses new)
      /\ (length records <= length acc + length holders)%nat.
Proof.
  induction holders as [|addr rest IH]; intros acc s.
  - exists acc, []. simpl. rewrite extend_nil. repeat split; try lia. constructor.
  - destruct (fetch_bounded env (LPTokenContract lp) addr 3 2000 3 1 s)
      as (new1 & Hst & HQ & Hreads & Hpauses & Hend & _ & Hone); [lia|].
    change (fetchBalance_from env 3 (LPTokenContract lp) addr 3 2000 1)
      with (fetchBalanceWithRetries env (LPTokenContract lp) addr 3 2000) in Hst, Hend.
    destruct (fetchBalanceWithRetries env (LPTokenContract lp) addr 3 2000 s)
      as [read s1] eqn:Hread.
    simpl in Hst, Hend. subst s1.
    rewrite (holder_turn env lp price decimals addr rest acc s read _ Hread Hend).
    assert (Hafter : exists report,
              after_read lp addr read (extend s new1) = extend s (new1 ++ report)
              /\ reads_made report = [] /\ pauses report = []).
    { destruct read as [[bn|]|err|]; simpl;
        first [ by exists []; rewrite app_nil_r
              | eexists [_]; by rewrite record_effect_extend, extend_extend ]. }
    destruct Hafter as (report & -> & Hr1 & Hr2).
    destruct (IH (acc ++ qualifying env lp price decimals addr read)
                (extend s (new1 ++ report)))
      as (records & new & Hrun & Hreads' & Hpauses' & Hdelay & Hlen).
    exists records, ((new1 ++ report) ++ new).
    rewrite Hrun, extend_extend. split; [done|].
    rewrite !reads_made_app, !pauses_app, Hr1, Hr2, !app_nil_r, !length_app.
    assert (Hq : (length (qualifying env lp price decimals addr read) <= 1)%nat).
    { destruct read as [[bn|]|err|]; simpl; try lia.
      destruct (5000 <=? _)%float; simpl; lia. }
    rewrite length_app in Hlen. simpl length.
    assert (Hdelay1 : Forall (fun delay => delay = 2000) (pauses new1)).
    { clear -HQ. induction HQ as [|e l He _ IHl]; [constructor|].
      destruct e; simpl in *; try done. by constructor. }
    specialize (Hone ltac:(lia)).
    split; [lia|]. split; [lia|]. split; [by apply Forall_app | lia].
Qed.

(** X12.  Holder qualification always returns, and its cost is bounded by
    the number of holders: it reads each holder's balance at least once and
    at most three times, pauses at most twice per holder, each time for two
    seconds, keeps at most one record per holder, and touches neither the
    disk nor the checkpoint. *)
Theorem holder_qualification_is_bounded (env : Env) (lp : Address)
    (holders : list Address) (price : float) (decimals : Z) (s : State) :
  exists records new,
    checkLPHolderValue env lp holders price decimals s = (Return records, extend s new)
    /\ (length holders <= length (reads_made new) <= 3 * length holders)%nat
    /\ (length (pauses new) <= 2 * length holders)%nat
    /\ Forall (fun delay => delay = 2000) (pauses new)
    /\ (length records <= length holders)%nat.
Proof.
  destruct (holders_bounded env lp price decimals holders [] s)
    as (records & new & Hrun & Hreads & Hpauses & Hdelay & Hlen).
  by exists records, new.
Qed.

(** ** What a run leaves in the CSV file *)

Lemma csv_after_app (env : Env) (old : option string) (r1 r2 : list HolderRecord) :
  csv_after env (csv_after env old r1) r2 = csv_after env old (r1 ++ r2).
Proof.
  destruct r1 as [|a r1]; [done|]. destruct r2 as [|b r2]; [by rewrite app_nil_r|].
  change (csv_after env old (a :: r1))
    with (Some (csv_base old ++ csv_rows env (a :: r1))%string).
  change (csv_after env old ((a :: r1) ++ b :: r2))
    with (Some (csv_base old ++ csv_rows env ((a :: r1) ++ b :: r2))%string).
  rewrite csv_rows_app by done. unfold csv_after, csv_base.
  by rewrite string_app_assoc.
Qed.

Lemma loadCheckpoint_files (env : Env) (filename : string) (s : State) :
  files (loadCheckpoint env filename s).2 = files s.
Proof.
  unfold loadCheckpoint, bind at 1, fs_existsSync.
  destruct (files s !! filename) as [data|] eqn:Hfile; [|done].
  unfold try_catch, bind at 1, fs_readFileSync, fs_call.
  destruct (fs_fault env (trace s) (FsRead filename)); [done|]. simpl. rewrite Hfile.
  by destruct (JSON_parse env data).
Qed.

Lemma getLPPairAddresses_files (env : Env) (fromBlock toBlock batchSize : Z) (s : State) :
  0 < batchSize ->
  files (getLPPairAddresses env fromBlock toBlock batchSize s).2 = files s.
Proof.
  intros Hbs. unfold getLPPairAddresses.
  rewrite (bind_return _ _ _ _ _ (log_run _ s)).
  destruct (pages_batches env FactoryContract PairCreatedFilter toBlock batchSize
              (Z.to_nat (toBlock - fromBlock + 1)) Hbs fromBlock []
              (record_effect (ConsoleLog (MsgQueryingPairCreated fromBlock toBlock batchSize))
                 s))
    as (events & new & Hscan & _); [lia|].
  fold (queryFilterPaginated env FactoryContract PairCreatedFilter fromBlock toBlock
          batchSize) in Hscan.
  by rewrite (bind_return _ _ _ _ _ Hscan).
Qed.

(** The records that holder qualification returns qualify. *)
Lemma checkLPHolderValue_qualifies (env : Env) (lp : Address) (price : float)
    (decimals : Z) (holders : list Address) (s : State) :
  exists records new,
    checkLPHolderValue env lp holders price decimals s = (Return records, extend s new)
    /\ Forall (qualifies lp price) records.
Proof.
  destruct (holders_bounded env lp price decimals holders [] s)
    as (records & new & Hrun & _).
  exists records, new. split; [exact Hrun|].
  assert (Hsat : forall acc,
            Forall (qualifies lp price) acc ->
            sat (fun _ => True)
              (checkLPHolderValue_from env lp (LPTokenContract lp) price decimals holders acc)
              (returns (Forall (qualifies lp price)))).
  { clear. induction holders as [|addr rest IH]; intros acc Hacc; simpl;
      [by apply sat_ret|].
    eapply sat_bind_returns with (P := Forall (qualifies lp price)); [|intros; by apply IH].
    eapply sat_catch with (P := Forall (qualifies lp price)); [| |done].
    - eapply sat_bind_ends with (P := anything).
      + eapply sat_pre; [|apply sat_fetchBalanceWithRetries]. done.
      + intros [bn|] _; [|by apply sat_throw].
        destruct (5000 <=? _)%float eqn:Hworth; apply sat_ret; simpl; [|done].
        apply Forall_app. split; [done|]. by apply Forall_singleton.
    - intros err. eapply sat_bind_returns; [by apply sat_error|].
      intros. by apply sat_ret. }
  destruct (Hsat [] ltac:(constructor) s) as [_ Hpost].
  unfold checkLPHolderValue in Hrun. by rewrite Hrun in Hpost.
Qed.

Section HealthyCsv.
Variable env : Env.
Hypothesis Hdisk : writes_succeed env.

Lemma record_step_run (lp : Address) (s : State) :
  (checkpoint_push lp ;;
   checkpoint <- get_checkpoint ;;
   saveCheckpoint env CHECKPOINT_FILENAME checkpoint) s
  = (Return tt,
     mkState
       (trace s ++ [FsWrite CHECKPOINT_FILENAME (JSON_stringify env (checkpoint s ++ [lp]))])
       (<[CHECKPOINT_FILENAME := JSON_stringify env (checkpoint s ++ [lp])]> (files s))
       (checkpoint s ++ [lp])).
Proof.
  set (s1 := mkState (trace s) (files s) (checkpoint s ++ [lp])).
  assert (Hrun :
    (checkpoint_push lp ;;
     checkpoint <- get_checkpoint ;;
     saveCheckpoint env CHECKPOINT_FILENAME checkpoint) s
    = fs_writeFileSync env CHECKPOINT_FILENAME (JSON_stringify env (checkpoint s1)) s1)
    by done.
  by rewrite Hrun, fs_writeFileSync_run, (proj1 (Hdisk _ _ _)).
Qed.

(** One turn of the loop: the CSV file gets the rows of the records of the
    pool that qualify, after what it held. *)
Lemma processPair_csv (fromBlock toBlock batchSize : Z) (lp : Address) (s : State) :
  0 < batchSize ->
  exists records s',
    processPair env fromBlock toBlock batchSize lp s = (Return tt, s')
    /\ Forall (qualifies lp 5) records
    /\ files s' !! CSV_FILENAME = csv_after env (files s !! CSV_FILENAME) records.
Proof.
  intros Hbs.
  assert (Hval : exists poolValue s1,
            getLiquidityPoolValue env lp 18 s = (Return poolValue, s1)
            /\ files s1 = files s).
  { rewrite getLiquidityPoolValue_run.
    destruct (rpc_totalSupply env (trace s) (LPTokenContract lp)); by eexists _, _. }
  destruct Hval as (poolValue & s1 & Hrun1 & Hf1).
  unfold processPair.
  rewrite (bind_return _ _ _ _ _ Hrun1), (bind_return _ _ _ _ _ (log_run _ s1)).
  set (s2 := record_effect _ s1).
  assert (Hother : forall data (disk : gmap string string),
            <[CHECKPOINT_FILENAME := data]> disk !! CSV_FILENAME = disk !! CSV_FILENAME).
  { intros data disk. apply lookup_insert_ne. intros Heq. by apply names_differ. }
  destruct (20000 <=? poolValue)%float.
  { rewrite (bind_return _ _ _ _ _ (log_run _ s2)), record_step_run.
    eexists [], _. split; [reflexivity|]. split; [constructor|].
    simpl. by rewrite Hother, Hf1. }
  destruct (pages_batches env (LPTokenContract lp) (TransferFilter (Some ZeroAddress) None)
              toBlock batchSize (Z.to_nat (toBlock - fromBlock + 1)) Hbs fromBlock [] s2)
    as (events & new & Hscan & _); [lia|].
  fold (queryFilterPaginated env (LPTokenContract lp)
          (TransferFilter (Some ZeroAddress) None) fromBlock toBlock batchSize) in Hscan.
  assert (Hholders : getLPHolders env lp fromBlock toBlock batchSize s2
                     = (Return (unique (map args_to events)), extend s2 new)).
  { unfold getLPHolders. by rewrite (bind_return _ _ _ _ _ Hscan). }
  rewrite (bind_return _ _ _ _ _ Hholders).
  set (holders := unique (map args_to events)).
  rewrite (bind_return _ _ _ _ _ (log_run _ (extend s2 new))).
  set (s3 := record_effect _ (extend s2 new)).
  rewrite (bind_return (getLPTokenUSDValue lp) _ s3 5%float s3 eq_refl).
  destruct (checkLPHolderValue_qualifies env lp 5 18 holders s3)
    as (records & new2 & Hcheck & Hqual).
  rewrite (bind_return _ _ _ _ _ Hcheck).
  rewrite (bind_return _ _ _ _ _ (log_run _ (extend s3 new2))).
  set (s4 := record_effect _ (extend s3 new2)).
  rewrite (bind_return _ _ _ _ _ (emit_run (ConsoleTable records) s4)).
  set (s5 := record_effect _ s4).
  destruct records as [|r records].
  { rewrite (bind_return (ret tt) _ s5 tt s5 eq_refl), record_step_run.
    eexists [], _. split; [reflexivity|]. split; [constructor|].
    simpl. by rewrite Hother, Hf1. }
  assert (Hlen : (0 <? Z.of_nat (length (r :: records))) = true)
    by (apply Z.ltb_lt; simpl; lia).
  rewrite Hlen.
  pose proof (sink_returns env Hdisk (r :: records) CSV_FILENAME s5) as Hret.
  destruct (sink_run env (r :: records) CSV_FILENAME s5 Hret) as (new3 & Hs6 & _).
  destruct (appendRecordsToCSV env (r :: records) CSV_FILENAME s5) as [res s6] eqn:Happend.
  simpl in Hret, Hs6. subst res.
  rewrite (bind_return _ _ _ _ _ Happend), record_step_run.
  eexists (r :: records), _. split; [reflexivity|]. split; [exact Hqual|].
  simpl files. rewrite Hother, Hs6. simpl files. rewrite lookup_insert_eq, Hf1. done.
Qed.

(** The loop of [main]: the CSV file gets the rows of the records that
    qualify, pool after pool. *)
Lemma processPairs_csv (fromBlock toBlock batchSize : Z) :
  0 < batchSize ->
  forall pools s,
    exists found s',
      processPairs env fromBlock toBlock batchSize pools s = (Return tt, s')
      /\ Forall2 (fun lp records => Forall (qualifies lp 5) records) pools found
      /\ files s' !! CSV_FILENAME = csv_after env (files s !! CSV_FILENAME) (concat found).
Proof.
  intros Hbs. induction pools as [|lp rest IH]; intros s.
  - exists [], s. split; [done|]. split; [constructor | done].
  - destruct (processPair_csv fromBlock toBlock batchSize lp
                (record_effect (ConsoleLog (MsgProcessingPair lp)) s) Hbs)
      as (records & s1 & Hrun & Hqual & Hfile).
    assert (Hguard : processPairGuarded env fromBlock toBlock batchSize lp s
                     = (Return tt, s1)).
    { unfold processPairGuarded. rewrite (bind_return _ _ _ _ _ (log_run _ s)).
      exact (try_return _ _ _ _ _ Hrun). }
    destruct (IH s1) as (found & s' & Hrest & Hquals & Hfile').
    exists (records :: found), s'. simpl. rewrite (bind_return _ _ _ _ _ Hguard).
    split; [exact Hrest|]. split; [by constructor|].
    rewrite Hfile', Hfile. simpl files. apply csv_after_app.
Qed.
End HealthyCsv.


